(** * tensorrt_buffer: safe_common.h

    A shallow embedding of [3rdparty/tensorrtbuffer/include/safe_common.h]
    (namespace [tensorrt_buffer]) and the properties of its helpers:

    - the size arithmetic on tensor shapes ([elementSize], [roundUp],
      the two [volume] overloads);
    - [safeSplitString], together with the part of [std::stringstream] and
      [std::getline] that it drives;
    - the class [TrtCudaGraphSafe], run against an arbitrary CUDA runtime.

    Conventions.  Fixed-width signed integers are [Z] with the two's
    complement wrap-around written out ([wrap]); division by zero, the
    overflowing quotient and an array index out of bounds have no result
    ([None]).  Opaque CUDA handles are addresses ([N], [nullptr] is 0).
    [abort()] is an outcome of its own, distinct from returning. *)

From Stdlib Require Import ZArith NArith List String Ascii Bool Lia.
Import ListNotations.

Open Scope Z_scope.

(* ===================================================================== *)
(** * Fixed-width integers *)
(* ===================================================================== *)

Module Int.

(** The value of a [w]-bit two's complement integer holding [x]. *)
Definition wrap (w : Z) (x : Z) : Z :=
  (x + 2 ^ (w - 1)) mod 2 ^ w - 2 ^ (w - 1).

Definition min_signed (w : Z) : Z := - 2 ^ (w - 1).
Definition max_signed (w : Z) : Z := 2 ^ (w - 1) - 1.

Definition in_range (w : Z) (x : Z) : Prop :=
  min_signed w <= x <= max_signed w.

Definition wrap64 : Z -> Z := wrap 64.

(** [a / b] of C++ on [w]-bit signed operands: truncation toward zero;
    no result for a zero divisor or for [min / -1]. *)
Definition sdiv (w : Z) (a b : Z) : option Z :=
  if b =? 0 then None
  else if (a =? min_signed w) && (b =? -1) then None
  else Some (Z.quot a b).

End Int.

(** The option monad, for the operations that may have no result. *)
Definition obind {A B : Type} (o : option A) (k : A -> option B) : option B :=
  match o with
  | Some a => k a
  | None => None
  end.

Notation "x <-? c ; k" := (obind c (fun x => k))
  (at level 61, c at next level, right associativity).

(* ===================================================================== *)
(** * nvinfer1::DataType and nvinfer1::Dims *)
(* ===================================================================== *)

(** [nvinfer1::DataType] is an [enum class] over [int32_t]; a value of the
    type is any [int32_t], of which the header names seven.  The numbering
    is the one of [NvInferRuntimeCommon.h]. *)
Module DataType.
Definition t : Type := Z.
Definition kFLOAT : t := 0.
Definition kHALF  : t := 1.
Definition kINT8  : t := 2.
Definition kINT32 : t := 3.
Definition kBOOL  : t := 4.
Definition kUINT8 : t := 5.
Definition kFP8   : t := 6.

(** The enumerators that the switch of [elementSize] lists. *)
Definition enumerated : list t :=
  [kINT32; kFLOAT; kHALF; kINT8; kUINT8; kBOOL; kFP8].
End DataType.

(** [nvinfer1::Dims]: a rank and a fixed array of [MAX_DIMS] extents. *)
Definition MAX_DIMS : Z := 8.

Record Dims : Type := mkDims {
  nbDims : Z;
  d : list Z
}.

(** What the C++ type guarantees of a [Dims] value. *)
Definition Dims_wf (dims : Dims) : Prop :=
  Int.in_range 32 (nbDims dims) /\
  Z.of_nat (List.length (d dims)) = MAX_DIMS /\
  Forall (Int.in_range 32) (d dims).

(* ===================================================================== *)
(** * Size arithmetic *)
(* ===================================================================== *)

(** [uint32_t elementSize(nvinfer1::DataType t)]: the switch, case by case
    in the order of the source, then the [return 0] after it. *)
Definition elementSize (t : DataType.t) : Z :=
  if t =? DataType.kINT32 then 4
  else if t =? DataType.kFLOAT then 4
  else if t =? DataType.kHALF then 2
  else if t =? DataType.kINT8 then 1
  else if t =? DataType.kUINT8 then 1
  else if t =? DataType.kBOOL then 1
  else if t =? DataType.kFP8 then 1
  else 0.

(** [template <typename T> T roundUp(T m, T n)] at a signed [w]-bit [T]:
    [((m + n - 1) / n) * n]. *)
Definition roundUp (w : Z) (m n : Z) : option Z :=
  let s := Int.wrap w (Int.wrap w (m + n) - 1) in
  q <-? Int.sdiv w s n ;
  Some (Int.wrap w (q * n)).

(** [int64_t volume(nvinfer1::Dims const& d)]: [std::accumulate] of the
    first [nbDims] extents under [std::multiplies<int64_t>], from 1.  The
    range [d.d, d.d + d.nbDims) has to lie inside the array. *)
Definition volume (dims : Dims) : option Z :=
  if (0 <=? nbDims dims) && (nbDims dims <=? Z.of_nat (List.length (d dims)))
  then Some (fold_left (fun acc x => Int.wrap64 (acc * x))
                       (firstn (Z.to_nat (nbDims dims)) (d dims)) 1)
  else None.

(** [dims.d[i] = x] on the by-value copy of the argument. *)
Fixpoint store (l : list Z) (i : nat) (x : Z) : list Z :=
  match l, i with
  | [], _ => []
  | _ :: l', O => x :: l'
  | y :: l', S i' => y :: store l' i' x
  end.

(** [int64_t volume(nvinfer1::Dims dims, int32_t vecDim, int32_t comps,
    int32_t batch)]. *)
Definition volume4 (dims : Dims) (vecDim comps batch : Z) : option Z :=
  dims' <-? (if 0 <=? vecDim
             then x <-? nth_error (d dims) (Z.to_nat vecDim) ;
                  r <-? roundUp 32 x comps ;
                  Some (mkDims (nbDims dims)
                               (store (d dims) (Z.to_nat vecDim) r))
             else Some dims) ;
  v <-? volume dims' ;
  Some (Int.wrap64 (v * Z.max batch 1)).

(** [template <typename A, typename B> A divUp(A x, B n)] with [A] and [B]
    the same signed [w]-bit type: [(x + n - 1) / n]. *)
Definition divUp (w : Z) (x n : Z) : option Z :=
  Int.sdiv w (Int.wrap w (Int.wrap w (x + n) - 1)) n.

(** The product of a list of extents, in [Z]. *)
Definition product (l : list Z) : Z := fold_right Z.mul 1 l.

(** The extents that [volume] multiplies: the first [nbDims]. *)
Definition extents (dims : Dims) : list Z :=
  firstn (Z.to_nat (nbDims dims)) (d dims).

(* ===================================================================== *)
(** * safeSplitString *)
(* ===================================================================== *)

Open Scope string_scope.

(** The part of a [std::stringstream] that [safeSplitString] observes: the
    characters not yet read and the two state bits the reads can set. *)
Record stringstream : Type := mkStream {
  unread : string;
  eofbit : bool;
  failbit : bool
}.

(** [std::stringstream ss(str)]. *)
Definition stringstream_of (str : string) : stringstream :=
  mkStream str false false.

(** [ss.good()]. *)
Definition good (ss : stringstream) : bool :=
  negb (eofbit ss) && negb (failbit ss).

(** The extraction loop of [std::getline]: characters are taken up to the
    delimiter, which is taken too and dropped, or up to the end of the
    buffer.  Gives the line, what stays unread, and whether the end of the
    buffer was hit. *)
Fixpoint extract_line (delimiter : ascii) (s : string) : string * string * bool :=
  match s with
  | EmptyString => (EmptyString, EmptyString, true)
  | String c rest =>
      if Ascii.eqb c delimiter then (EmptyString, rest, false)
      else let '(line, rest', hit_eof) := extract_line delimiter rest in
           (String c line, rest', hit_eof)
  end.

(** [getline(ss, substr, delimiter)].  On a stream that is not good the
    sentry sets [failbit] and the string is left alone.  Otherwise the
    string is erased and filled; [eofbit] is set when the buffer ran out,
    [failbit] when not a single character (delimiter included) was taken. *)
Definition getline (ss : stringstream) (substr : string) (delimiter : ascii)
  : stringstream * string :=
  if good ss then
    let '(line, rest, hit_eof) := extract_line delimiter (unread ss) in
    let nothing_taken :=
      match unread ss with EmptyString => true | String _ _ => false end in
    (mkStream rest hit_eof nothing_taken, line)
  else (mkStream (unread ss) (eofbit ss) true, substr).

(** The [while (ss.good())] loop.  [substr] is moved from at each
    [emplace_back] and is empty afterwards. *)
Fixpoint split_loop (fuel : nat) (delimiter : ascii) (ss : stringstream)
    (substr : string) (splitVect : list string) : option (list string) :=
  match fuel with
  | O => None
  | S fuel' =>
      if good ss then
        let '(ss', substr') := getline ss substr delimiter in
        split_loop fuel' delimiter ss' EmptyString (splitVect ++ [substr'])
      else Some splitVect
  end.

(** [std::vector<std::string> safeSplitString(std::string str, char
    delimiter)].  Each round of the loop reads at least one character or
    ends the stream, so [length str + 2] rounds are enough. *)
Definition safeSplitString (str : string) (delimiter : ascii)
  : option (list string) :=
  split_loop (S (S (String.length str))) delimiter (stringstream_of str)
             EmptyString [].

(** The fields of [s]: the pieces between delimiters, empty ones kept. *)
Fixpoint fields (delimiter : ascii) (s : string) : list string :=
  match s with
  | EmptyString => [EmptyString]
  | String c rest =>
      if Ascii.eqb c delimiter then EmptyString :: fields delimiter rest
      else match fields delimiter rest with
           | [] => [String c EmptyString]
           | f :: fs => String c f :: fs
           end
  end.

(** How many times the delimiter occurs in [s]. *)
Fixpoint occurrences (delimiter : ascii) (s : string) : nat :=
  match s with
  | EmptyString => O
  | String c rest =>
      if Ascii.eqb c delimiter then S (occurrences delimiter rest)
      else occurrences delimiter rest
  end.

(** The strings of [fs] put back together, the delimiter between each
    two. *)
Fixpoint join (delimiter : ascii) (fs : list string) : string :=
  match fs with
  | [] => EmptyString
  | f :: fs' =>
      match fs' with
      | [] => f
      | _ :: _ => f ++ String delimiter (join delimiter fs')
      end
  end.

Close Scope string_scope.

(* ===================================================================== *)
(** * The CUDA runtime, as the class sees it *)
(* ===================================================================== *)

(** [cudaError_t] is a plain enum: [CHECK] tests it against 0 and prints
    it as a number.  The two codes the header names, with the values of
    [driver_types.h]. *)
Definition cudaError_t : Type := Z.
Definition cudaSuccess : cudaError_t := 0.
Definition cudaErrorStreamCaptureInvalidated : cudaError_t := 901.

Inductive cudaStreamCaptureMode : Type :=
| cudaStreamCaptureModeGlobal
| cudaStreamCaptureModeThreadLocal
| cudaStreamCaptureModeRelaxed.

(** Opaque handles are pointers. *)
Definition cudaStream_t : Type := N.
Definition cudaGraph_t : Type := N.
Definition cudaGraphExec_t : Type := N.
Definition nullptr : N := 0%N.

(** The runtime entry points the header calls, over a runtime state [D].
    An entry point with an out-parameter ([cudaGraph_t* pGraph],
    [cudaGraphExec_t* pGraphExec]) receives what the pointee holds and
    gives back what it holds after the call, so a runtime is free to write
    it or to leave it.  [cudaPeekAtLastError] reads the pending error
    without resetting it; the header does not call it, the properties about
    the pending error are stated with it. *)
Class CudaRuntime (D : Type) : Type := {
  cudaStreamBeginCapture :
    cudaStream_t -> cudaStreamCaptureMode -> D -> cudaError_t * D;
  cudaStreamEndCapture :
    cudaStream_t -> cudaGraph_t -> D -> cudaError_t * cudaGraph_t * D;
  cudaGraphInstantiate :
    cudaGraphExec_t -> cudaGraph_t -> D -> cudaError_t * cudaGraphExec_t * D;
  cudaGraphDestroy : cudaGraph_t -> D -> cudaError_t * D;
  cudaGraphExecDestroy : cudaGraphExec_t -> D -> cudaError_t * D;
  cudaGraphLaunch : cudaGraphExec_t -> cudaStream_t -> D -> cudaError_t * D;
  cudaGetLastError : D -> cudaError_t * D;
  cudaPeekAtLastError : D -> cudaError_t
}.

(** What the CUDA documentation promises of the calls, where a property
    below depends on it. *)
Definition GetLastError_resets (D : Type) `{CudaRuntime D} : Prop :=
  forall rt : D, cudaPeekAtLastError (snd (cudaGetLastError rt)) = cudaSuccess.

Definition Instantiate_gives_handle (D : Type) `{CudaRuntime D} : Prop :=
  forall e g (rt : D),
    fst (fst (cudaGraphInstantiate e g rt)) = cudaSuccess ->
    snd (fst (cudaGraphInstantiate e g rt)) <> nullptr.

Definition EndCapture_gives_handle (D : Type) `{CudaRuntime D} : Prop :=
  forall s g (rt : D),
    fst (fst (cudaStreamEndCapture s g rt)) = cudaSuccess ->
    snd (fst (cudaStreamEndCapture s g rt)) <> nullptr.

(** One runtime call made by the object, with what came back: the status
    and, for an out-parameter, the pointee after the call. *)
Inductive event : Type :=
| EvStreamBeginCapture (stream : cudaStream_t) (mode : cudaStreamCaptureMode)
                       (status : cudaError_t)
| EvStreamEndCapture (stream : cudaStream_t) (status : cudaError_t)
                     (graph : cudaGraph_t)
| EvGraphInstantiate (graph : cudaGraph_t) (status : cudaError_t)
                     (graphExec : cudaGraphExec_t)
| EvGraphDestroy (graph : cudaGraph_t) (status : cudaError_t)
| EvGraphExecDestroy (graphExec : cudaGraphExec_t) (status : cudaError_t)
| EvGraphLaunch (graphExec : cudaGraphExec_t) (stream : cudaStream_t)
                (status : cudaError_t)
| EvGetLastError (status : cudaError_t).

(** What the two macros write to [std::cerr] before [abort()]. *)
Inductive diagnostic : Type :=
| CudaFailure (status : cudaError_t)
| AssertionFailure (condition : string).

(* ===================================================================== *)
(** * TrtCudaGraphSafe *)
(* ===================================================================== *)

(** The two private members. *)
Record TrtCudaGraphSafe : Type := mkGraphSafe {
  mGraph : cudaGraph_t;
  mGraphExec : cudaGraphExec_t
}.

(** The process around one object: the object, the runtime, the calls the
    object has made so far, and the two output streams. *)
Record process (D : Type) : Type := mkProcess {
  this : TrtCudaGraphSafe;
  runtime : D;
  trace : list event;
  cerr : list diagnostic;
  gLogError : list string
}.

Arguments mkProcess {D} _ _ _ _ _.
Arguments this {D} _.
Arguments runtime {D} _.
Arguments trace {D} _.
Arguments cerr {D} _.
Arguments gLogError {D} _.

(** A member function either returns or the process aborts inside it. *)
Inductive outcome (A : Type) : Type :=
| Returned (a : A)
| Aborted.

Arguments Returned {A} _.
Arguments Aborted {A}.

Definition M (D A : Type) : Type := process D -> outcome A * process D.

Definition ret {D A : Type} (a : A) : M D A := fun p => (Returned a, p).

Definition bind {D A B : Type} (m : M D A) (k : A -> M D B) : M D B :=
  fun p =>
    match m p with
    | (Returned a, p') => k a p'
    | (Aborted, p') => (Aborted, p')
    end.

Definition abort {D A : Type} : M D A := fun p => (Aborted, p).

Notation "x <- c ;; k" := (bind c (fun x => k))
  (at level 61, c at next level, right associativity).
Notation "c ;; k" := (bind c (fun _ => k))
  (at level 61, right associativity).

Definition the_capture_failed_message : string :=
  "The CUDA graph capture on the stream has failed.".

Section Members.

Context {D : Type} `{RT : CudaRuntime D}.

(** ** State access *)

Definition get_mGraph : M D cudaGraph_t :=
  fun p => (Returned (mGraph (this p)), p).

Definition get_mGraphExec : M D cudaGraphExec_t :=
  fun p => (Returned (mGraphExec (this p)), p).

Definition set_mGraph (g : cudaGraph_t) : M D unit :=
  fun p => (Returned tt,
            mkProcess (mkGraphSafe g (mGraphExec (this p)))
                      (runtime p) (trace p) (cerr p) (gLogError p)).

Definition set_mGraphExec (e : cudaGraphExec_t) : M D unit :=
  fun p => (Returned tt,
            mkProcess (mkGraphSafe (mGraph (this p)) e)
                      (runtime p) (trace p) (cerr p) (gLogError p)).

Definition print_cerr (msg : diagnostic) : M D unit :=
  fun p => (Returned tt,
            mkProcess (this p) (runtime p) (trace p) (cerr p ++ [msg])
                      (gLogError p)).

Definition print_gLogError (msg : string) : M D unit :=
  fun p => (Returned tt,
            mkProcess (this p) (runtime p) (trace p) (cerr p)
                      (gLogError p ++ [msg])).

(** A runtime call: the runtime moves on, the call is recorded. *)
Definition call {A : Type} (f : D -> A * D) (ev : A -> event) : M D A :=
  fun p =>
    let '(a, rt') := f (runtime p) in
    (Returned a,
     mkProcess (this p) rt' (trace p ++ [ev a]) (cerr p) (gLogError p)).

(** ** The two macros *)

(** [CHECK(status)]. *)
Definition CHECK (status : M D cudaError_t) : M D unit :=
  r <- status ;;
  if negb (r =? 0)%Z
  then print_cerr (CudaFailure r) ;; abort
  else ret tt.

(** [SAFE_ASSERT(condition)]; [text] is [#condition]. *)
Definition SAFE_ASSERT (condition : bool) (text : string) : M D unit :=
  if negb condition
  then print_cerr (AssertionFailure text) ;; abort
  else ret tt.

(** ** Runtime calls as the members make them *)

(** [cudaStreamEndCapture(stream, &mGraph)]. *)
Definition cudaStreamEndCapture_mGraph (stream : cudaStream_t)
  : M D cudaError_t :=
  g0 <- get_mGraph ;;
  rg <- call (cudaStreamEndCapture stream g0)
             (fun rg => EvStreamEndCapture stream (fst rg) (snd rg)) ;;
  set_mGraph (snd rg) ;;
  ret (fst rg).

(** [cudaGraphInstantiate(&mGraphExec, mGraph, nullptr, nullptr, 0)]. *)
Definition cudaGraphInstantiate_mGraphExec : M D cudaError_t :=
  e0 <- get_mGraphExec ;;
  g <- get_mGraph ;;
  re <- call (cudaGraphInstantiate e0 g)
             (fun re => EvGraphInstantiate g (fst re) (snd re)) ;;
  set_mGraphExec (snd re) ;;
  ret (fst re).

(** [cudaGraphDestroy(mGraph)]. *)
Definition cudaGraphDestroy_mGraph : M D cudaError_t :=
  g <- get_mGraph ;;
  call (cudaGraphDestroy g) (EvGraphDestroy g).

(** ** The members *)

(** [TrtCudaGraphSafe()]: both members value-initialised. *)
Definition construct (rt : D) : process D :=
  mkProcess (mkGraphSafe nullptr nullptr) rt [] [] [].

(** [~TrtCudaGraphSafe()]. *)
Definition destructor : M D unit :=
  e <- get_mGraphExec ;;
  if negb (e =? nullptr)%N
  then call (cudaGraphExecDestroy e) (EvGraphExecDestroy e) ;; ret tt
  else ret tt.

(** [void beginCapture(cudaStream_t& stream)]. *)
Definition beginCapture (stream : cudaStream_t) : M D unit :=
  CHECK (call (cudaStreamBeginCapture stream cudaStreamCaptureModeGlobal)
              (EvStreamBeginCapture stream cudaStreamCaptureModeGlobal)).

(** [bool launch(cudaStream_t& stream)]. *)
Definition launch (stream : cudaStream_t) : M D bool :=
  e <- get_mGraphExec ;;
  r <- call (cudaGraphLaunch e stream) (EvGraphLaunch e stream) ;;
  ret (r =? cudaSuccess)%Z.

(** [void endCapture(cudaStream_t& stream)]. *)
Definition endCapture (stream : cudaStream_t) : M D unit :=
  CHECK (cudaStreamEndCapture_mGraph stream) ;;
  CHECK cudaGraphInstantiate_mGraphExec ;;
  CHECK cudaGraphDestroy_mGraph.

(** [void endCaptureOnError(cudaStream_t& stream)]. *)
Definition endCaptureOnError (stream : cudaStream_t) : M D unit :=
  r <- cudaStreamEndCapture_mGraph stream ;;
  (if (r =? cudaErrorStreamCaptureInvalidated)%Z
   then
     g <- get_mGraph ;;
     SAFE_ASSERT (g =? nullptr)%N "mGraph == nullptr"
   else
     SAFE_ASSERT (r =? cudaSuccess)%Z "ret == cudaSuccess" ;;
     g <- get_mGraph ;;
     SAFE_ASSERT (negb (g =? nullptr)%N) "mGraph != nullptr" ;;
     CHECK cudaGraphDestroy_mGraph ;;
     set_mGraph nullptr) ;;
  call cudaGetLastError EvGetLastError ;;
  print_gLogError the_capture_failed_message.

(** ** Lifetimes *)

(** What a caller does with the object between construction and
    destruction.  [Elsewhere f] is anything done to the runtime that does
    not go through the object: the work submitted to the stream during
    a capture, other streams, other objects. *)
Inductive op : Type :=
| BeginCapture (stream : cudaStream_t)
| EndCapture (stream : cudaStream_t)
| EndCaptureOnError (stream : cudaStream_t)
| Launch (stream : cudaStream_t)
| Elsewhere (f : D -> D).

Definition run_op (o : op) : M D unit :=
  match o with
  | BeginCapture s => beginCapture s
  | EndCapture s => endCapture s
  | EndCaptureOnError s => endCaptureOnError s
  | Launch s => launch s ;; ret tt
  | Elsewhere f =>
      fun p => (Returned tt,
                mkProcess (this p) (f (runtime p)) (trace p) (cerr p)
                          (gLogError p))
  end.

Fixpoint run_ops (ops : list op) : M D unit :=
  match ops with
  | [] => ret tt
  | o :: ops' => run_op o ;; run_ops ops'
  end.

(** An object's whole life on the runtime [rt]: construction, the
    caller's operations, destruction. *)
Definition lifetime (rt : D) (ops : list op) : outcome unit * process D :=
  (run_ops ops ;; destructor) (construct rt).

(** The lifecycle of the design: [Empty], then [Capturing] by
    [beginCapture], then [Instantiated] by [endCapture] or
    [EmptyAfterError] by [endCaptureOnError]; nothing leads back to
    [Capturing].  [launch] and what happens elsewhere do not move the
    object. *)
Inductive phase : Type := Empty | Capturing | Instantiated | EmptyAfterError.

Definition next (ph : phase) (o : op) : option phase :=
  match o, ph with
  | BeginCapture _, Empty => Some Capturing
  | EndCapture _, Capturing => Some Instantiated
  | EndCaptureOnError _, Capturing => Some EmptyAfterError
  | Launch _, _ => Some ph
  | Elsewhere _, _ => Some ph
  | _, _ => None
  end.

Fixpoint allowed (ph : phase) (ops : list op) : bool :=
  match ops with
  | [] => true
  | o :: ops' =>
      match next ph o with
      | Some ph' => allowed ph' ops'
      | None => false
      end
  end.

End Members.

(** ** Counting on traces *)


Definition is_GraphExecDestroy (ev : event) : bool :=
  match ev with
  | EvGraphExecDestroy _ _ => true
  | _ => false
  end.

Definition is_GraphExecDestroy_of (e : cudaGraphExec_t) (ev : event) : bool :=
  match ev with
  | EvGraphExecDestroy e' _ => (e' =? e)%N
  | _ => false
  end.

Definition is_GraphInstantiate (ev : event) : bool :=
  match ev with
  | EvGraphInstantiate _ _ _ => true
  | _ => false
  end.

Definition count (f : event -> bool) (tr : list event) : nat :=
  List.length (filter f tr).



Definition is_GetLastError (ev : event) : bool :=
  match ev with
  | EvGetLastError _ => true
  | _ => false
  end.

(** A begin of capture in the global mode, or any other event. *)
Definition begins_globally (ev : event) : bool :=
  match ev with
  | EvStreamBeginCapture _ cudaStreamCaptureModeGlobal _ => true
  | EvStreamBeginCapture _ _ _ => false
  | _ => true
  end.

(** A launch of the null handle, or any other event. *)
Definition launches_nullptr (ev : event) : bool :=
  match ev with
  | EvGraphLaunch e _ _ => (e =? nullptr)%N
  | _ => true
  end.

(** A destruction of the executable graph [e], or any other event. *)
Definition releases_only (e : cudaGraphExec_t) (ev : event) : bool :=
  match ev with
  | EvGraphExecDestroy e' _ => (e' =? e)%N
  | _ => true
  end.

Section Lifecycle.

Context {D : Type} `{RT : CudaRuntime D}.

Definition is_EndCapture (o : op (D := D)) : bool :=
  match o with
  | EndCapture _ => true
  | _ => false
  end.


(** How many [endCapture]s a caller asks for. *)
Definition endCaptures (ops : list (op (D := D))) : nat :=
  List.length (filter is_EndCapture ops).


Definition is_EndCaptureOnError (o : op (D := D)) : bool :=
  match o with
  | EndCaptureOnError _ => true
  | _ => false
  end.

(** How many [endCaptureOnError]s a caller asks for. *)
Definition endCaptureOnErrors (ops : list (op (D := D))) : nat :=
  List.length (filter is_EndCaptureOnError ops).

End Lifecycle.

(* ===================================================================== *)
(** * A scripted runtime *)
(* ===================================================================== *)

(** A runtime that answers each call with the next reply of a script, for
    running the class on concrete scenarios.  It keeps the pending error
    the way the CUDA runtime does: a failing call leaves its status
    pending, [cudaGetLastError] hands it out and resets it. *)
Module Scripted.

Record reply : Type := mkReply {
  status : cudaError_t;
  handle : N
}.

Record state : Type := mkState {
  script : list reply;
  pending : cudaError_t
}.

Definition cudaErrorUnknown : cudaError_t := 999.

Definition note (r : cudaError_t) (st_pending : cudaError_t) : cudaError_t :=
  if (r =? cudaSuccess)%Z then st_pending else r.

(** The next reply; a script that ran out answers [cudaErrorUnknown] and
    leaves the out-parameter as it is. *)
Definition answer (old : N) (st : state) : cudaError_t * N * state :=
  match script st with
  | [] => (cudaErrorUnknown, old, mkState [] cudaErrorUnknown)
  | r :: rest =>
      (status r, handle r, mkState rest (note (status r) (pending st)))
  end.

Definition answer_status (st : state) : cudaError_t * state :=
  let '(r, _, st') := answer nullptr st in (r, st').

#[global] Instance runtime : CudaRuntime state := {
  cudaStreamBeginCapture _ _ st := answer_status st;
  cudaStreamEndCapture _ g st := answer g st;
  cudaGraphInstantiate e _ st := answer e st;
  cudaGraphDestroy _ st := answer_status st;
  cudaGraphExecDestroy _ st := answer_status st;
  cudaGraphLaunch _ _ st := answer_status st;
  cudaGetLastError st := (pending st, mkState (script st) cudaSuccess);
  cudaPeekAtLastError st := pending st
}.

Definition ok : reply := mkReply cudaSuccess nullptr.
Definition ok_with (h : N) : reply := mkReply cudaSuccess h.
Definition failed (r : cudaError_t) : reply := mkReply r nullptr.

Definition start (replies : list reply) : state :=
  mkState replies cudaSuccess.

End Scripted.

(** A capture that goes well: begin, end with graph [0x10], instantiate
    with executable graph [0x20], destroy the graph, then whatever
    follows. *)
Definition good_capture (more : list Scripted.reply) : Scripted.state :=
  Scripted.start
    ([Scripted.ok; Scripted.ok_with 16; Scripted.ok_with 32; Scripted.ok]
       ++ more).

(** A capture that the environment invalidated: the end of the capture
    reports it and gives no graph back. *)
Definition invalidated_capture : Scripted.state :=
  Scripted.start
    [Scripted.ok; Scripted.failed cudaErrorStreamCaptureInvalidated].


(** A capture that ends well although the caller knows it failed: the
    graph [0x10] comes back and its destruction succeeds. *)
Definition discarded_capture : Scripted.state :=
  Scripted.start [Scripted.ok; Scripted.ok_with 16; Scripted.ok].

(** A whole lifetime: a capture that goes well, a launch that succeeds, a
    launch that fails, and the destructor's call. *)
Definition demo_runtime : Scripted.state :=
  good_capture [Scripted.ok; Scripted.failed 4; Scripted.ok].

Definition demo_ops : list (op (D := Scripted.state)) :=
  [BeginCapture 1%N; EndCapture 1%N; Launch 1%N; Launch 1%N].

(** Two captures on one object, both going well: the second gives the
    graph [0x11] and the executable graph [0x21]. *)
Definition recapture_runtime : Scripted.state :=
  good_capture
    [Scripted.ok; Scripted.ok_with 17; Scripted.ok_with 33; Scripted.ok;
     Scripted.ok].

Definition recapture_ops : list (op (D := Scripted.state)) :=
  [BeginCapture 1%N; EndCapture 1%N; BeginCapture 1%N; EndCapture 1%N].


(** A lifetime without a capture: two launches on a fresh object. *)
Definition launch_only_ops : list (op (D := Scripted.state)) :=
  [Launch 1%N; Launch 2%N].

(** A lifetime with two failed captures, the first invalidated, the second
    ended with a graph. *)
Definition two_failures_runtime : Scripted.state :=
  Scripted.start
    [Scripted.ok; Scripted.failed cudaErrorStreamCaptureInvalidated;
     Scripted.ok; Scripted.ok_with 16; Scripted.ok].

Definition two_failures_ops : list (op (D := Scripted.state)) :=
  [BeginCapture 1%N; EndCaptureOnError 1%N;
   BeginCapture 1%N; EndCaptureOnError 1%N].

(* ===================================================================== *)
(** * Properties of the size arithmetic *)
(* ===================================================================== *)

Example elementSize_kFLOAT : elementSize DataType.kFLOAT = 4.
Proof. reflexivity. Qed.

Example elementSize_kHALF : elementSize DataType.kHALF = 2.
Proof. reflexivity. Qed.

Example elementSize_unlisted : elementSize 9 = 0 /\ elementSize (-1) = 0.
Proof. split; reflexivity. Qed.

(** C9. [elementSize] has a result for every value of the data type, listed
    or not: 4 for [kINT32] and [kFLOAT], 2 for [kHALF], 1 for [kINT8],
    [kUINT8], [kBOOL] and [kFP8], and 0 for every value that is none of the
    seven. *)
Theorem elementSize_total (t : DataType.t) :
  (t = DataType.kINT32 \/ t = DataType.kFLOAT -> elementSize t = 4) /\
  (t = DataType.kHALF -> elementSize t = 2) /\
  (t = DataType.kINT8 \/ t = DataType.kUINT8 \/
   t = DataType.kBOOL \/ t = DataType.kFP8 -> elementSize t = 1) /\
  (~ In t DataType.enumerated -> elementSize t = 0).
Proof.
  repeat split.
  - intros [-> | ->]; reflexivity.
  - intros ->; reflexivity.
  - intros [-> | [-> | [-> | ->]]]; reflexivity.
  - intros Hout. unfold elementSize.
    repeat match goal with
    | |- context [ (t =? ?k) ] =>
        destruct (Z.eqb_spec t k) as [E | _];
        [ exfalso; apply Hout; rewrite E; simpl; tauto | ]
    end.
    reflexivity.
Qed.

Lemma elementSize_total_witness :
  ~ In 7 DataType.enumerated /\ elementSize 7 = 0.
Proof.
  assert (Hout : ~ In 7 DataType.enumerated).
  { simpl. unfold DataType.kINT32, DataType.kFLOAT, DataType.kHALF,
      DataType.kINT8, DataType.kUINT8, DataType.kBOOL, DataType.kFP8.
    intros H. repeat destruct H as [H | H]; try discriminate H; exact H. }
  split; [ exact Hout | ].
  exact (proj2 (proj2 (proj2 (elementSize_total 7))) Hout).
Defined.

(** The result of [elementSize] is one of 0, 1, 2 and 4, so it is a
    [uint32_t] whatever the argument. *)
Lemma elementSize_values (t : DataType.t) :
  In (elementSize t) [0; 1; 2; 4].
Proof.
  unfold elementSize.
  repeat match goal with
  | |- context [ if ?b then _ else _ ] => destruct b
  end; simpl; tauto.
Qed.

Lemma wrap_range (w x : Z) : 0 < w -> Int.in_range w (Int.wrap w x).
Proof.
  intros Hw. unfold Int.in_range, Int.wrap, Int.min_signed, Int.max_signed.
  assert (H2 : 2 ^ w = 2 * 2 ^ (w - 1)).
  { replace w with (Z.succ (w - 1)) at 1 by lia. apply Z.pow_succ_r. lia. }
  assert (Hp : 0 < 2 ^ (w - 1)) by (apply Z.pow_pos_nonneg; lia).
  pose proof (Z.mod_pos_bound (x + 2 ^ (w - 1)) (2 ^ w)) as Hm.
  lia.
Qed.

Lemma wrap_in_range (w x : Z) : 0 < w -> Int.in_range w x -> Int.wrap w x = x.
Proof.
  intros Hw. unfold Int.in_range, Int.wrap, Int.min_signed, Int.max_signed.
  intros Hx.
  assert (H2 : 2 ^ w = 2 * 2 ^ (w - 1)).
  { replace w with (Z.succ (w - 1)) at 1 by lia. apply Z.pow_succ_r. lia. }
  rewrite Z.mod_small by lia. lia.
Qed.

(** The product that [volume] accumulates is an [int64_t]. *)
Lemma accumulate_range (l : list Z) (init : Z) :
  Int.in_range 64 init ->
  Int.in_range 64 (fold_left (fun acc x => Int.wrap64 (acc * x)) l init).
Proof.
  revert init. induction l as [| x l IH]; intros init Hinit; simpl.
  - exact Hinit.
  - apply IH. apply wrap_range. lia.
Qed.

Lemma volume_range (dims : Dims) (v : Z) :
  volume dims = Some v -> Int.in_range 64 v.
Proof.
  unfold volume.
  destruct ((0 <=? nbDims dims) &&
            (nbDims dims <=? Z.of_nat (List.length (d dims)))); [ | discriminate ].
  intros [= <-]. apply accumulate_range.
  unfold Int.in_range, Int.min_signed, Int.max_signed. simpl. lia.
Qed.

(** On a shape as the C++ type holds it, with a rank within the array,
    [volume] has a result. *)
Lemma volume_defined (dims : Dims) :
  Dims_wf dims ->
  0 <= nbDims dims <= MAX_DIMS ->
  exists v, volume dims = Some v /\ Int.in_range 64 v.
Proof.
  intros (_ & Hlen & _) Hrank. unfold volume. rewrite Hlen.
  destruct (Z.leb_spec 0 (nbDims dims)); [ | lia ].
  destruct (Z.leb_spec (nbDims dims) MAX_DIMS); [ | lia ].
  simpl. eexists. split; [ reflexivity | ].
  apply accumulate_range.
  unfold Int.in_range, Int.min_signed, Int.max_signed. simpl. lia.
Qed.

(** With a batch of 1 the four-argument [volume] multiplies by 1: its
    result is the [volume] of the rounded-up shape. *)
Lemma volume4_batch_1 (dims : Dims) (vecDim comps : Z) :
  volume4 dims vecDim comps 1 =
  (dims' <-? (if 0 <=? vecDim
              then x <-? nth_error (d dims) (Z.to_nat vecDim) ;
                   r <-? roundUp 32 x comps ;
                   Some (mkDims (nbDims dims)
                                (store (d dims) (Z.to_nat vecDim) r))
              else Some dims) ;
   volume dims').
Proof.
  unfold volume4.
  destruct (if 0 <=? vecDim then _ else _) as [dims' |]; simpl; [ | reflexivity ].
  destruct (volume dims') as [v |] eqn:Ev; simpl; [ | reflexivity ].
  f_equal. rewrite Z.mul_1_r. apply wrap_in_range; [ lia | ].
  eapply volume_range; eassumption.
Qed.

Example volume4_2x3x5_vec4 :
  volume4 (mkDims 3 [2; 3; 5; 0; 0; 0; 0; 0]) 1 4 (-3) = Some 40 /\
  volume4 (mkDims 3 [2; 3; 5; 0; 0; 0; 0; 0]) 1 4 1 = Some 40 /\
  volume4 (mkDims 3 [2; 3; 5; 0; 0; 0; 0; 0]) 1 4 2 = Some 80 /\
  volume4 (mkDims 3 [2; 3; 5; 0; 0; 0; 0; 0]) (-1) 4 0 = Some 30 /\
  volume4 (mkDims 3 [2; 3; 5; 0; 0; 0; 0; 0]) 1 0 0 = None.
Proof. repeat split; vm_compute; reflexivity. Qed.

(** C10. For every shape, vector dimension and component count, a batch of
    at most 1 (zero and negative ones included) gives what a batch of 1
    gives: the factor is [max(batch, 1)]. *)
Theorem volume4_batch_clamped (dims : Dims) (vecDim comps batch : Z) :
  batch <= 1 ->
  volume4 dims vecDim comps batch = volume4 dims vecDim comps 1.
Proof.
  intros Hb. unfold volume4.
  replace (Z.max batch 1) with (Z.max 1 1) by lia.
  reflexivity.
Qed.

Lemma volume4_batch_clamped_witness :
  volume4 (mkDims 3 [2; 3; 5; 0; 0; 0; 0; 0]) 1 4 (-3) =
  volume4 (mkDims 3 [2; 3; 5; 0; 0; 0; 0; 0]) 1 4 1.
Proof.
  apply (volume4_batch_clamped (mkDims 3 [2; 3; 5; 0; 0; 0; 0; 0]) 1 4 (-3)).
  lia.
Defined.

(* ===================================================================== *)
(** * Properties of safeSplitString *)
(* ===================================================================== *)

Open Scope string_scope.

Example safeSplitString_abc :
  safeSplitString "a,bc,,d" "," = Some ["a"; "bc"; ""; "d"].
Proof. reflexivity. Qed.

Example safeSplitString_trailing :
  safeSplitString "a,b," "," = Some ["a"; "b"; ""].
Proof. reflexivity. Qed.

Example safeSplitString_only_delimiter :
  safeSplitString "," "," = Some [""; ""].
Proof. reflexivity. Qed.

Example safeSplitString_no_delimiter :
  safeSplitString "abc" ";" = Some ["abc"].
Proof. reflexivity. Qed.

Lemma fields_not_nil (delimiter : ascii) (s : string) :
  fields delimiter s <> [].
Proof.
  destruct s as [| c rest]; simpl.
  - discriminate.
  - destruct (Ascii.eqb c delimiter); [ discriminate | ].
    destruct (fields delimiter rest); discriminate.
Qed.

(** One [getline] against [fields]: at the end of the buffer the line is
    the last field, at a delimiter it is the first field and the rest of
    the fields are those of what stays unread, which is shorter. *)
Lemma extract_line_fields (delimiter : ascii) (s : string) :
  forall line rest hit_eof,
    extract_line delimiter s = (line, rest, hit_eof) ->
    if hit_eof
    then fields delimiter s = [line]
    else fields delimiter s = line :: fields delimiter rest /\
         (String.length rest < String.length s)%nat.
Proof.
  induction s as [| c s IH]; intros line rest hit_eof; simpl.
  - intros [= <- <- <-]. reflexivity.
  - destruct (Ascii.eqb c delimiter).
    + intros [= <- <- <-]. split; [ reflexivity | lia ].
    + destruct (extract_line delimiter s) as [[line' rest'] eof'] eqn:E.
      intros [= <- <- <-].
      specialize (IH line' rest' eof' eq_refl).
      destruct eof'.
      * rewrite IH. reflexivity.
      * destruct IH as [IH Hlen]. rewrite IH. split; [ reflexivity | lia ].
Qed.

Lemma getline_good (delimiter : ascii) (s substr : string) :
  getline (stringstream_of s) substr delimiter =
  let '(line, rest, hit_eof) := extract_line delimiter s in
  (mkStream rest hit_eof
            match s with EmptyString => true | String _ _ => false end,
   line).
Proof. reflexivity. Qed.

(** The loop, from a good stream: given fuel for the characters left and
    two more rounds, it ends with the fields of what was unread appended. *)
Lemma split_loop_fields (delimiter : ascii) :
  forall fuel s substr splitVect,
    (String.length s + 2 <= fuel)%nat ->
    split_loop fuel delimiter (stringstream_of s) substr splitVect =
    Some (splitVect ++ fields delimiter s)%list.
Proof.
  induction fuel as [| fuel IH]; intros s substr splitVect Hfuel.
  - lia.
  - cbn [split_loop].
    change (good (stringstream_of s)) with true. cbv iota.
    rewrite getline_good.
    destruct (extract_line delimiter s) as [[line rest] hit_eof] eqn:E.
    pose proof (extract_line_fields delimiter s line rest hit_eof E) as F.
    destruct hit_eof.
    + rewrite F. destruct fuel as [| fuel']; [ simpl in Hfuel; lia | ].
      reflexivity.
    + destruct F as [F Hlen]. rewrite F.
      destruct s as [| c s']; [ simpl in Hlen; lia | ].
      change (mkStream rest false false) with (stringstream_of rest).
      rewrite IH by (simpl in *; lia).
      rewrite <- app_assoc. reflexivity.
Qed.

(** [safeSplitString] always returns, and returns the fields. *)
Lemma safeSplitString_fields (str : string) (delimiter : ascii) :
  safeSplitString str delimiter = Some (fields delimiter str).
Proof.
  unfold safeSplitString. rewrite split_loop_fields by lia. reflexivity.
Qed.

Lemma fields_trailing_delimiter (delimiter : ascii) (s : string) :
  fields delimiter (s ++ String delimiter "") = (fields delimiter s ++ [""])%list.
Proof.
  induction s as [| c s IH]; simpl.
  - rewrite Ascii.eqb_refl. reflexivity.
  - destruct (Ascii.eqb c delimiter).
    + rewrite IH. reflexivity.
    + rewrite IH. pose proof (fields_not_nil delimiter s) as Hne.
      destruct (fields delimiter s) as [| f fs]; [ congruence | reflexivity ].
Qed.

(** The number of elements is the number of delimiters plus one. *)
Lemma fields_length (delimiter : ascii) (s : string) :
  List.length (fields delimiter s) = S (occurrences delimiter s).
Proof.
  induction s as [| c s IH]; simpl.
  - reflexivity.
  - destruct (Ascii.eqb c delimiter); simpl; [ congruence | ].
    destruct (fields delimiter s); simpl in *; congruence.
Qed.

(** C8. For every string and delimiter [safeSplitString] returns a vector
    that is not empty; the empty string gives exactly one empty string; and
    a delimiter appended at the end of the input appends an empty string to
    the result, so a trailing empty field is kept. *)
Theorem safeSplitString_never_empty (str : string) (delimiter : ascii) :
  safeSplitString "" delimiter = Some [""] /\
  exists v : list string,
    safeSplitString str delimiter = Some v /\
    v <> [] /\
    safeSplitString (str ++ String delimiter "") delimiter = Some (v ++ [""])%list.
Proof.
  split; [ reflexivity | ].
  exists (fields delimiter str).
  rewrite !safeSplitString_fields, fields_trailing_delimiter.
  repeat split. apply fields_not_nil.
Qed.

Close Scope string_scope.

(* ===================================================================== *)
(** * Properties of the members of TrtCudaGraphSafe *)
(* ===================================================================== *)

Ltac unfold_members :=
  unfold endCapture, endCaptureOnError, beginCapture, launch, destructor,
    CHECK, SAFE_ASSERT, cudaStreamEndCapture_mGraph,
    cudaGraphInstantiate_mGraphExec, cudaGraphDestroy_mGraph, call, bind,
    ret, abort, get_mGraph, get_mGraphExec, set_mGraph, set_mGraphExec,
    print_cerr, print_gLogError in *.

Ltac project :=
  cbn [fst snd this runtime trace cerr gLogError mGraph mGraphExec negb] in *.

(** Splits on the next runtime call or test of a member's body. *)
Ltac case_call :=
  match goal with
  | |- context [ let '(_, _) := ?c in _ ] =>
      lazymatch c with
      | context [ match _ with _ => _ end ] => fail
      | _ => destruct c as [? ?] eqn:?
      end
  | |- context [ if ?b then _ else _ ] =>
      lazymatch b with
      | context [ match _ with _ => _ end ] => fail
      | _ => destruct b eqn:?
      end
  end; project.

(** Turns the tests a run went through into equations. *)
Ltac tests :=
  repeat match goal with
  | H : negb _ = true |- _ => apply negb_true_iff in H
  | H : negb _ = false |- _ => apply negb_false_iff in H
  | H : (_ =? _)%Z = true |- _ => apply Z.eqb_eq in H
  | H : (_ =? _)%Z = false |- _ => apply Z.eqb_neq in H
  | H : (_ =? _)%N = true |- _ => apply N.eqb_eq in H
  | H : (_ =? _)%N = false |- _ => apply N.eqb_neq in H
  end.

Ltac run := unfold_members; project; repeat case_call; tests.

Section MemberProperties.

Context {D : Type} `{RT : CudaRuntime D}.

(** C5. [beginCapture] makes one runtime call, [cudaStreamBeginCapture]
    on the caller's stream in the global mode, touches nothing of the
    object, returns when the call reports success and aborts, after a
    line on [cerr], on every other status. *)
Theorem beginCapture_global_or_abort (stream : cudaStream_t) (p : process D) :
  let call :=
    cudaStreamBeginCapture stream cudaStreamCaptureModeGlobal (runtime p) in
  let o := fst (beginCapture stream p) in
  let p' := snd (beginCapture stream p) in
  runtime p' = snd call /\
  trace p' =
    trace p ++
    [EvStreamBeginCapture stream cudaStreamCaptureModeGlobal (fst call)] /\
  this p' = this p /\
  (o = Returned tt <-> fst call = cudaSuccess) /\
  (o = Aborted <-> fst call <> cudaSuccess) /\
  (fst call <> cudaSuccess -> cerr p' = cerr p ++ [CudaFailure (fst call)]).
Proof.
  cbv zeta. run; subst; unfold cudaSuccess;
    repeat split; try intros; try congruence; try discriminate.
Qed.

(** C4. [launch] always returns, with [true] exactly when
    [cudaGraphLaunch] of the executable graph on the caller's stream
    reports [cudaSuccess]; it writes nothing to [cerr] and leaves the
    object as it is. *)
Theorem launch_returns_bool (stream : cudaStream_t) (p : process D) :
  let call := cudaGraphLaunch (mGraphExec (this p)) stream (runtime p) in
  exists b : bool,
    fst (launch stream p) = Returned b /\
    (b = true <-> fst call = cudaSuccess) /\
    (b = false <-> fst call <> cudaSuccess) /\
    trace (snd (launch stream p)) =
      trace p ++ [EvGraphLaunch (mGraphExec (this p)) stream (fst call)] /\
    this (snd (launch stream p)) = this p /\
    cerr (snd (launch stream p)) = cerr p.
Proof.
  cbv zeta. unfold_members. project.
  destruct (cudaGraphLaunch (mGraphExec (this p)) stream (runtime p))
    as [r rt'] eqn:E.
  project. exists (r =? cudaSuccess)%Z.
  destruct (Z.eqb_spec r cudaSuccess);
    repeat split; try intros; try congruence; try discriminate.
Qed.


(** Splits a trace of known events at its last one. *)
Ltac last_event_witness :=
  match goal with
  | |- exists evs r, _ ++ ?l = _ /\ _ =>
      exists (removelast l); eexists; split; reflexivity
  end.

(** C3. [endCaptureOnError] never instantiates and leaves [mGraphExec] as
    it was, on every run.  When it returns, on either branch, its last
    runtime call is the one [cudaGetLastError], after which the runtime
    has no error pending, and it has logged the one message that the
    capture failed. *)
Theorem endCaptureOnError_frame (stream : cudaStream_t) (p : process D) :
  GetLastError_resets D ->
  let o := fst (endCaptureOnError stream p) in
  let p' := snd (endCaptureOnError stream p) in
  mGraphExec (this p') = mGraphExec (this p) /\
  (exists evs,
     trace p' = trace p ++ evs /\ count is_GraphInstantiate evs = 0%nat) /\
  (o = Returned tt ->
     cudaPeekAtLastError (runtime p') = cudaSuccess /\
     (exists evs r,
        trace p' = trace p ++ evs ++ [EvGetLastError r] /\
        count is_GetLastError evs = 0%nat) /\
     gLogError p' = gLogError p ++ [the_capture_failed_message]) /\
  (o = Aborted -> gLogError p' = gLogError p).
Proof.
  intros Hreset. cbv zeta. run.
  all: rewrite <- ?app_assoc; cbn [app].
  all: split; [ reflexivity | ].
  all: split; [ eexists; split; reflexivity | ].
  all: split; [ | intros; try reflexivity; discriminate ].
  all: intros Hret; try discriminate.
  all: split;
    [ match goal with
      | H : cudaGetLastError ?rt = (_, ?rt') |- _ =>
          pose proof (Hreset rt) as R; rewrite H in R; exact R
      end | ].
  all: split; [ last_event_witness | reflexivity ].
Qed.


(** On a runtime that hands out handles as documented, a returning
    [endCapture] leaves an executable graph, and leaves the graph member
    pointing at the destroyed descriptor. *)
Lemma endCapture_returned_handles (stream : cudaStream_t) (p p' : process D) :
  EndCapture_gives_handle D ->
  Instantiate_gives_handle D ->
  endCapture stream p = (Returned tt, p') ->
  mGraphExec (this p') <> nullptr /\ mGraph (this p') <> nullptr.
Proof.
  intros Hcap Hinst. run; intros [= <-]; project; subst.
  split.
  - match goal with
    | H : cudaGraphInstantiate ?e ?g ?rt = _ |- _ =>
        pose proof (Hinst e g rt) as R; rewrite H in R; apply R; assumption
    end.
  - match goal with
    | H : cudaStreamEndCapture ?s ?g ?rt = _ |- _ =>
        pose proof (Hcap s g rt) as R; rewrite H in R; apply R; assumption
    end.
Qed.

End MemberProperties.

(* ===================================================================== *)
(** * Properties of whole lifetimes *)
(* ===================================================================== *)

Lemma count_app (f : event -> bool) (a b : list event) :
  count f (a ++ b) = (count f a + count f b)%nat.
Proof. unfold count. rewrite filter_app, length_app. reflexivity. Qed.







Section LifetimeProperties.

Context {D : Type} `{RT : CudaRuntime D}.

(** ** How the phases and the runs fit *)










(** A whole lifetime that returns, split at the destructor. *)
Lemma lifetime_returned (rt : D) (ops : list (@op D)) (p : process D) :
  lifetime rt ops = (Returned tt, p) ->
  exists p1,
    run_ops ops (construct rt) = (Returned tt, p1) /\
    p = snd (destructor p1).
Proof.
  unfold lifetime, bind.
  destruct (run_ops ops (construct rt)) as [[[] |] p1]; [ | discriminate ].
  intros H. exists p1. rewrite H. split; reflexivity.
Qed.





(** ** The executable graph member *)

(** Only [endCapture] instantiates, and it does so at most once. *)
Lemma run_op_instantiates (o : @op D) (p : process D) :
  (count is_GraphInstantiate (trace (snd (run_op o p))) <=
   count is_GraphInstantiate (trace p) + (if is_EndCapture o then 1 else 0))%nat.
Proof.
  destruct o; cbn [run_op is_EndCapture]; run;
    rewrite ?count_app; unfold count; simpl; lia.
Qed.

Lemma run_ops_instantiates (ops : list (@op D)) :
  forall p : process D,
    (count is_GraphInstantiate (trace (snd (run_ops ops p))) <=
     count is_GraphInstantiate (trace p) + endCaptures ops)%nat.
Proof.
  induction ops as [| o ops IH]; intros p.
  - simpl. lia.
  - cbn [run_ops]. unfold bind.
    pose proof (run_op_instantiates o p) as Hop.
    destruct (run_op o p) as [[[] |] p1]; cbn [snd] in *.
    + specialize (IH p1). unfold endCaptures in *. simpl.
      destruct (is_EndCapture o); simpl; lia.
    + unfold endCaptures. simpl.
      destruct (is_EndCapture o); simpl; lia.
Qed.

Lemma destructor_instantiates (p : process D) :
  count is_GraphInstantiate (trace (snd (destructor p))) =
  count is_GraphInstantiate (trace p).
Proof.
  run; rewrite ?count_app; unfold count; simpl; lia.
Qed.

(** The lifecycle lets [endCapture] through once, out of [Capturing]. *)
Lemma allowed_endCaptures (ops : list (@op D)) :
  forall ph : phase,
    allowed ph ops = true ->
    (endCaptures ops <=
     match ph with Empty | Capturing => 1 | _ => 0 end)%nat.
Proof.
  induction ops as [| o ops IH]; intros ph Hal.
  - unfold endCaptures. simpl. destruct ph; lia.
  - simpl in Hal. destruct (next ph o) as [ph' |] eqn:Hnext; [ | discriminate ].
    specialize (IH ph' Hal). unfold endCaptures in *. simpl.
    destruct o, ph; simpl in *; try discriminate;
      injection Hnext as <-; simpl in *; lia.
Qed.

Lemma allowed_app (ops1 ops2 : list (@op D)) :
  forall ph : phase,
    allowed ph (ops1 ++ ops2) = true ->
    (endCaptures ops1 + endCaptures ops2 <= 1)%nat.
Proof.
  intros ph Hal. apply allowed_endCaptures in Hal.
  unfold endCaptures in *. rewrite filter_app, length_app in Hal.
  destruct ph; lia.
Qed.

(** Every member but [endCapture] leaves [mGraphExec] alone. *)
Lemma run_op_keeps_mGraphExec (o : @op D) (p : process D) :
  is_EndCapture o = false ->
  mGraphExec (this (snd (run_op o p))) = mGraphExec (this p).
Proof.
  destruct o; cbn [run_op is_EndCapture]; intros Ho; try discriminate;
    run; reflexivity.
Qed.

Lemma destructor_keeps_mGraphExec (p : process D) :
  mGraphExec (this (snd (destructor p))) = mGraphExec (this p).
Proof. run; reflexivity. Qed.

Lemma run_ops_keeps_mGraphExec (ops : list (@op D)) :
  forall p : process D,
    endCaptures ops = 0%nat ->
    mGraphExec (this (snd (run_ops ops p))) = mGraphExec (this p).
Proof.
  induction ops as [| o ops IH]; intros p Hnone.
  - reflexivity.
  - unfold endCaptures in Hnone. simpl in Hnone.
    destruct (is_EndCapture o) eqn:Ho; [ discriminate | ].
    cbn [run_ops]. unfold bind.
    pose proof (run_op_keeps_mGraphExec o p Ho) as Hop.
    destruct (run_op o p) as [[[] |] p1]; cbn [snd] in *.
    + rewrite IH by exact Hnone. exact Hop.
    + exact Hop.
Qed.

(** C7. Over a lifetime that follows the lifecycle, aborted or not, the
    executable graph member is written by at most one instantiation; no
    member but [endCapture], and not the destructor, changes it; and once
    it is not null, the operations that follow leave it as it is. *)
Theorem executableGraph_set_at_most_once (rt : D) (ops : list (@op D)) :
  allowed Empty ops = true ->
  (count is_GraphInstantiate (trace (snd (lifetime rt ops))) <= 1)%nat /\
  (forall o p,
     is_EndCapture o = false ->
     mGraphExec (this (snd (run_op o p))) = mGraphExec (this p)) /\
  (forall p,
     mGraphExec (this (snd (destructor p))) = mGraphExec (this p)) /\
  (forall ops1 ops2,
     ops = ops1 ++ ops2 ->
     mGraphExec (this (snd (run_ops ops1 (construct rt)))) <> nullptr ->
     mGraphExec (this (snd (run_ops ops2
                              (snd (run_ops ops1 (construct rt)))))) =
     mGraphExec (this (snd (run_ops ops1 (construct rt))))).
Proof.
  intros Hal. repeat split.
  - unfold lifetime, bind.
    pose proof (run_ops_instantiates ops (construct rt)) as Hops.
    pose proof (allowed_endCaptures ops Empty Hal) as Hone.
    destruct (run_ops ops (construct rt)) as [[[] |] p1]; cbn [snd] in *.
    + rewrite destructor_instantiates.
      change (count is_GraphInstantiate (trace (construct rt))) with 0%nat in Hops.
      lia.
    + change (count is_GraphInstantiate (trace (construct rt))) with 0%nat in Hops.
      lia.
  - apply run_op_keeps_mGraphExec.
  - apply destructor_keeps_mGraphExec.
  - intros ops1 ops2 -> Hset.
    apply run_ops_keeps_mGraphExec.
    pose proof (allowed_app ops1 ops2 Empty Hal) as Hone.
    destruct (endCaptures ops1) as [| n] eqn:H1; [ | lia ].
    exfalso. apply Hset.
    rewrite run_ops_keeps_mGraphExec by exact H1. reflexivity.
Qed.

End LifetimeProperties.

(* ===================================================================== *)
(** * The class on the scripted runtime *)
(* ===================================================================== *)

Lemma Scripted_GetLastError_resets : GetLastError_resets Scripted.state.
Proof. intros rt. reflexivity. Qed.

Lemma Scripted_good_capture_handles :
  fst (fst (cudaStreamEndCapture 1%N nullptr
              (snd (cudaStreamBeginCapture 1%N cudaStreamCaptureModeGlobal
                      (good_capture []))))) = cudaSuccess /\
  snd (fst (cudaStreamEndCapture 1%N nullptr
              (snd (cudaStreamBeginCapture 1%N cudaStreamCaptureModeGlobal
                      (good_capture []))))) = 16%N.
Proof. split; reflexivity. Qed.

(** C1. A capture that goes well, with nothing submitted in between:
    [beginCapture] then [endCapture] return, the three calls of
    [endCapture] are made in order, and the executable graph member holds
    the handle [0x20] of the instantiation.  The graph member, however, is
    not null afterwards: [endCapture] destroys the descriptor and does not
    reset the member, which still holds [0x10]. *)
Theorem endCapture_descriptor_not_cleared :
  let run := run_ops [BeginCapture 1%N; EndCapture 1%N]
                     (construct (good_capture [])) in
  fst run = Returned tt /\
  trace (snd run) =
    [EvStreamBeginCapture 1%N cudaStreamCaptureModeGlobal cudaSuccess;
     EvStreamEndCapture 1%N cudaSuccess 16%N;
     EvGraphInstantiate 16%N cudaSuccess 32%N;
     EvGraphDestroy 16%N cudaSuccess] /\
  mGraphExec (this (snd run)) = 32%N /\
  mGraph (this (snd run)) = 16%N /\
  mGraph (this (snd run)) <> nullptr.
Proof.
  cbv zeta. repeat split. discriminate.
Qed.

(** The same on the failure path, where the member is cleared. *)
Example endCaptureOnError_clears_descriptor :
  let run := run_ops [BeginCapture 1%N; EndCaptureOnError 1%N]
                     (construct discarded_capture) in
  fst run = Returned tt /\
  trace (snd run) =
    [EvStreamBeginCapture 1%N cudaStreamCaptureModeGlobal cudaSuccess;
     EvStreamEndCapture 1%N cudaSuccess 16%N;
     EvGraphDestroy 16%N cudaSuccess;
     EvGetLastError cudaSuccess] /\
  this (snd run) = mkGraphSafe nullptr nullptr /\
  gLogError (snd run) = [the_capture_failed_message].
Proof. cbv zeta. repeat split. Qed.

Example endCaptureOnError_invalidated_returns :
  let run := run_ops [BeginCapture 1%N; EndCaptureOnError 1%N]
                     (construct invalidated_capture) in
  fst run = Returned tt /\
  trace (snd run) =
    [EvStreamBeginCapture 1%N cudaStreamCaptureModeGlobal cudaSuccess;
     EvStreamEndCapture 1%N cudaErrorStreamCaptureInvalidated nullptr;
     EvGetLastError cudaErrorStreamCaptureInvalidated] /\
  this (snd run) = mkGraphSafe nullptr nullptr /\
  cudaPeekAtLastError (runtime (snd run)) = cudaSuccess /\
  gLogError (snd run) = [the_capture_failed_message].
Proof. cbv zeta. repeat split. Qed.

Example launch_reports_failure :
  let p := snd (run_ops [BeginCapture 1%N; EndCapture 1%N]
                        (construct (good_capture [Scripted.failed 4]))) in
  fst (launch 1%N p) = Returned false /\ cerr (snd (launch 1%N p)) = [].
Proof. cbv zeta. split; reflexivity. Qed.

Lemma beginCapture_global_or_abort_witness :
  fst (beginCapture 1%N (construct (Scripted.start [Scripted.failed 2])))
    = Aborted /\
  cerr (snd (beginCapture 1%N (construct (Scripted.start [Scripted.failed 2]))))
    = [CudaFailure 2].
Proof.
  destruct (beginCapture_global_or_abort
              1%N (construct (Scripted.start [Scripted.failed 2])))
    as (_ & _ & _ & _ & [_ Habort] & Hcerr).
  split; [ apply Habort | apply Hcerr ]; vm_compute; discriminate.
Defined.


Lemma endCaptureOnError_frame_witness :
  let p := snd (beginCapture 1%N (construct invalidated_capture)) in
  GetLastError_resets Scripted.state /\
  cudaPeekAtLastError (runtime (snd (endCaptureOnError 1%N p))) = cudaSuccess /\
  gLogError (snd (endCaptureOnError 1%N p)) = [the_capture_failed_message] /\
  mGraphExec (this (snd (endCaptureOnError 1%N p))) = mGraphExec (this p).
Proof.
  cbv zeta. split; [ exact Scripted_GetLastError_resets | ].
  destruct (endCaptureOnError_frame
              1%N (snd (beginCapture 1%N (construct invalidated_capture)))
              Scripted_GetLastError_resets)
    as (Hexec & _ & Hret & _).
  destruct (Hret eq_refl) as (Hpending & _ & Hlog).
  split; [ exact Hpending | ].
  split; [ exact Hlog | exact Hexec ].
Defined.


Lemma executableGraph_set_at_most_once_witness :
  allowed Empty demo_ops = true /\
  (count is_GraphInstantiate
         (trace (snd (lifetime demo_runtime demo_ops))) <= 1)%nat.
Proof.
  split; [ reflexivity | ].
  apply (executableGraph_set_at_most_once demo_runtime demo_ops eq_refl).
Defined.

(* ===================================================================== *)
(** * Further properties of the size arithmetic *)
(* ===================================================================== *)

(** Wrapping is a reduction modulo [2 ^ w]: it can be done once at the
    end. *)
Lemma wrap_add_l (w a b : Z) :
  0 < w -> Int.wrap w (Int.wrap w a + b) = Int.wrap w (a + b).
Proof.
  intros Hw. unfold Int.wrap. f_equal.
  assert (Hm : 2 ^ w <> 0) by (apply Z.pow_nonzero; lia).
  replace ((a + 2 ^ (w - 1)) mod 2 ^ w - 2 ^ (w - 1) + b + 2 ^ (w - 1))
    with ((a + 2 ^ (w - 1)) mod 2 ^ w + b) by lia.
  rewrite Z.add_mod_idemp_l by exact Hm. f_equal. lia.
Qed.

Lemma wrap_mul_l (w a b : Z) :
  0 < w -> Int.wrap w (Int.wrap w a * b) = Int.wrap w (a * b).
Proof.
  intros Hw. unfold Int.wrap. f_equal.
  assert (Hm : 2 ^ w <> 0) by (apply Z.pow_nonzero; lia).
  set (h := 2 ^ (w - 1)). set (M := 2 ^ w) in *.
  replace (((a + h) mod M - h) * b + h)
    with ((a + h) mod M * b + (h - h * b)) by ring.
  rewrite <- Z.add_mod_idemp_l by exact Hm.
  rewrite Z.mul_mod_idemp_l by exact Hm.
  rewrite Z.add_mod_idemp_l by exact Hm.
  f_equal. ring.
Qed.

(** The numerator [x + n - 1] as the code computes it, when it fits. *)
Lemma numerator_exact (w x n : Z) :
  0 < w ->
  Int.in_range w (x + n - 1) ->
  Int.wrap w (Int.wrap w (x + n) - 1) = x + n - 1.
Proof.
  intros Hw Hfit.
  replace (Int.wrap w (x + n) - 1) with (Int.wrap w (x + n) + (-1)) by lia.
  rewrite wrap_add_l by exact Hw.
  replace (x + n + -1) with (x + n - 1) by lia.
  apply wrap_in_range; assumption.
Qed.

Example divUp_10_4 : divUp 32 10 4 = Some 3 /\ divUp 32 8 4 = Some 2 /\
                     divUp 32 0 4 = Some 0 /\ divUp 32 7 0 = None.
Proof. repeat split. Qed.

(** X1. For [x >= 0] and [n > 0] with [x + n - 1] representable, [divUp]
    is the ceiling of [x / n]: the one [q] with [(q - 1) * n < x <= q * n]. *)
Theorem divUp_ceiling (w x n : Z) :
  0 < w -> 0 <= x -> 0 < n ->
  x + n - 1 <= Int.max_signed w ->
  exists q, divUp w x n = Some q /\ (q - 1) * n < x <= q * n.
Proof.
  intros Hw Hx Hn Hfit.
  assert (Hp : 0 < 2 ^ (w - 1)) by (apply Z.pow_pos_nonneg; lia).
  unfold divUp. rewrite numerator_exact;
    [ | exact Hw | unfold Int.in_range, Int.min_signed; lia ].
  unfold Int.sdiv.
  destruct (Z.eqb_spec n 0); [ lia | ].
  destruct (Z.eqb_spec (x + n - 1) (Int.min_signed w)) as [E | _];
    [ unfold Int.min_signed in E; lia | ].
  cbn [andb]. exists ((x + n - 1) / n).
  rewrite Z.quot_div_nonneg by lia. split; [ reflexivity | ].
  pose proof (Z.div_mod (x + n - 1) n ltac:(lia)) as Hdm.
  pose proof (Z.mod_pos_bound (x + n - 1) n Hn) as Hmb.
  nia.
Qed.

Lemma divUp_ceiling_witness :
  exists q, divUp 32 10 4 = Some q /\ (q - 1) * 4 < 10 <= q * 4.
Proof.
  apply (divUp_ceiling 32 10 4); unfold Int.max_signed; simpl; lia.
Defined.

Example roundUp_10_4 : roundUp 32 10 4 = Some 12 /\ roundUp 32 12 4 = Some 12 /\
                       roundUp 32 (-5) 4 = Some 0 /\ roundUp 32 (-8) 4 = Some (-4).
Proof. repeat split. Qed.

(** X2. For [m >= 0] and [n > 0] with [m + n - 1] representable, [roundUp]
    gives the least multiple of [n] that is at least [m]. *)
Theorem roundUp_least_multiple (w m n : Z) :
  0 < w -> 0 <= m -> 0 < n ->
  m + n - 1 <= Int.max_signed w ->
  exists q,
    roundUp w m n = Some (q * n) /\
    m <= q * n < m + n /\
    (forall k, m <= k * n -> q * n <= k * n).
Proof.
  intros Hw Hm Hn Hfit.
  assert (Hp : 0 < 2 ^ (w - 1)) by (apply Z.pow_pos_nonneg; lia).
  unfold roundUp. rewrite numerator_exact;
    [ | exact Hw | unfold Int.in_range, Int.min_signed; lia ].
  unfold Int.sdiv.
  destruct (Z.eqb_spec n 0); [ lia | ].
  destruct (Z.eqb_spec (m + n - 1) (Int.min_signed w)) as [E | _];
    [ unfold Int.min_signed in E; lia | ].
  cbn [andb obind]. rewrite Z.quot_div_nonneg by lia.
  pose proof (Z.div_mod (m + n - 1) n ltac:(lia)) as Hdm.
  pose proof (Z.mod_pos_bound (m + n - 1) n Hn) as Hmb.
  set (q := (m + n - 1) / n) in *.
  set (r := (m + n - 1) mod n) in *.
  exists q.
  rewrite wrap_in_range;
    [ | exact Hw | unfold Int.in_range, Int.min_signed; nia ].
  split; [ reflexivity | ]. split; [ nia | ].
  intros k Hk.
  destruct (Z.le_gt_cases q k) as [Hle | Hgt]; [ nia | ].
  exfalso. assert (Hk1 : k + 1 <= q) by lia. nia.
Qed.

Lemma roundUp_least_multiple_witness :
  exists q, roundUp 32 10 4 = Some (q * 4) /\ 10 <= q * 4 < 10 + 4 /\
            (forall k, 10 <= k * 4 -> q * 4 <= k * 4).
Proof.
  apply (roundUp_least_multiple 32 10 4); unfold Int.max_signed; simpl; lia.
Defined.



(** X4. The division truncates toward zero, so below zero [roundUp] does
    not round to the nearest multiple: a negative multiple of [n >= 2] is
    moved up by a whole [n]. *)
Theorem roundUp_negative_multiple (w m n : Z) :
  0 < w -> m < 0 -> 2 <= n ->
  Int.in_range w m -> Int.in_range w n ->
  (n | m) ->
  roundUp w m n = Some (m + n).
Proof.
  intros Hw Hm Hn Hrm Hrn [j ->].
  assert (Hp : 0 < 2 ^ (w - 1)) by (apply Z.pow_pos_nonneg; lia).
  unfold Int.in_range, Int.min_signed, Int.max_signed in *.
  assert (Hj : j <= -1) by nia.
  unfold roundUp. rewrite numerator_exact;
    [ | exact Hw | unfold Int.in_range, Int.min_signed, Int.max_signed; nia ].
  unfold Int.sdiv.
  destruct (Z.eqb_spec n 0); [ lia | ].
  destruct (Z.eqb_spec (j * n + n - 1) (Int.min_signed w)) as [E | _];
    [ unfold Int.min_signed in E; nia | ].
  cbn [andb obind].
  assert (Hq : Z.quot (j * n + n - 1) n = j + 1).
  { replace (j * n + n - 1) with (- ((- j - 1) * n + 1)) by ring.
    rewrite Z.quot_opp_l by lia.
    rewrite Z.quot_div_nonneg by nia.
    rewrite <- (Z.div_unique ((- j - 1) * n + 1) n (- j - 1) 1);
      [ lia | lia | ring ]. }
  rewrite Hq. f_equal.
  replace ((j + 1) * n) with (j * n + n) by ring.
  apply wrap_in_range; [ exact Hw | ].
  unfold Int.in_range, Int.min_signed, Int.max_signed. nia.
Qed.

Lemma roundUp_negative_multiple_witness : roundUp 32 (-8) 4 = Some (-8 + 4).
Proof.
  apply (roundUp_negative_multiple 32 (-8) 4);
    try (unfold Int.in_range, Int.min_signed, Int.max_signed; simpl; lia).
  exists (-2). reflexivity.
Defined.

(** X5. [elementSize] is 0 exactly on the values that are none of the seven
    enumerators: a zero size tells an unknown data type apart. *)
Theorem elementSize_zero_iff (t : DataType.t) :
  elementSize t = 0 <-> ~ In t DataType.enumerated.
Proof.
  unfold elementSize, DataType.enumerated.
  unfold DataType.kINT32, DataType.kFLOAT, DataType.kHALF, DataType.kINT8,
    DataType.kUINT8, DataType.kBOOL, DataType.kFP8.
  repeat match goal with
  | |- context [ (t =? ?k) ] => destruct (Z.eqb_spec t k)
  end; subst; simpl; split; intros H; try discriminate H; try lia;
    try reflexivity; try (exfalso; apply H; tauto).
Qed.

(** The accumulation of [volume] is the product, reduced once. *)
Lemma accumulate_product (l : list Z) (init : Z) :
  Int.in_range 64 init ->
  fold_left (fun acc x => Int.wrap64 (acc * x)) l init =
  Int.wrap64 (init * product l).
Proof.
  revert init. induction l as [| x l IH]; intros init Hinit; simpl.
  - rewrite Z.mul_1_r. symmetry. apply wrap_in_range; [ lia | exact Hinit ].
  - rewrite IH by (apply wrap_range; lia).
    unfold Int.wrap64. rewrite wrap_mul_l by lia. f_equal. ring.
Qed.

Lemma in_range_64_1 : Int.in_range 64 1.
Proof. unfold Int.in_range, Int.min_signed, Int.max_signed. simpl. lia. Qed.

Lemma volume_some (dims : Dims) :
  0 <= nbDims dims <= Z.of_nat (List.length (d dims)) ->
  volume dims = Some (Int.wrap64 (product (extents dims))).
Proof.
  intros Hrank. unfold volume.
  destruct (Z.leb_spec 0 (nbDims dims)); [ | lia ].
  destruct (Z.leb_spec (nbDims dims) (Z.of_nat (List.length (d dims)))); [ | lia ].
  cbn [andb]. f_equal.
  unfold extents. rewrite accumulate_product by exact in_range_64_1.
  f_equal. lia.
Qed.

Example volume_2x3x5 :
  volume (mkDims 3 [2; 3; 5; 7; 7; 7; 7; 7]) = Some 30 /\
  volume (mkDims 0 [2; 3; 5; 7; 7; 7; 7; 7]) = Some 1 /\
  volume (mkDims 9 [2; 3; 5; 7; 7; 7; 7; 7]) = None /\
  volume (mkDims (-1) [2; 3; 5; 7; 7; 7; 7; 7]) = None.
Proof. repeat split. Qed.

(** X6. With a rank inside the array, [volume] is the product of the first
    [nbDims] extents reduced to 64 bits, whatever the intermediate
    products did; it is the product itself when that fits an [int64_t].
    The extents past the rank do not count. *)
Theorem volume_is_product (dims : Dims) :
  0 <= nbDims dims <= Z.of_nat (List.length (d dims)) ->
  volume dims = Some (Int.wrap64 (product (extents dims))) /\
  (Int.in_range 64 (product (extents dims)) ->
   volume dims = Some (product (extents dims))).
Proof.
  intros Hrank. rewrite volume_some by exact Hrank.
  split; [ reflexivity | ].
  intros Hfit. f_equal. apply wrap_in_range; [ lia | exact Hfit ].
Qed.

Lemma volume_is_product_witness :
  volume (mkDims 3 [2; 3; 5; 7; 7; 7; 7; 7]) = Some (2 * (3 * (5 * 1))).
Proof.
  apply (proj2 (volume_is_product (mkDims 3 [2; 3; 5; 7; 7; 7; 7; 7])
                  ltac:(simpl; lia))).
  unfold Int.in_range, Int.min_signed, Int.max_signed. simpl. lia.
Defined.

Lemma product_zero (l : list Z) : In 0 l -> product l = 0.
Proof.
  induction l as [| x l IH]; simpl; [ tauto | ].
  intros [-> | Hin]; [ reflexivity | ].
  rewrite IH by exact Hin. lia.
Qed.

(** X7. A zero extent within the rank makes the volume zero, overflow of
    the other extents or not. *)
Theorem volume_zero_extent (dims : Dims) :
  0 <= nbDims dims <= Z.of_nat (List.length (d dims)) ->
  In 0 (extents dims) ->
  volume dims = Some 0.
Proof.
  intros Hrank Hin. rewrite volume_some by exact Hrank.
  rewrite product_zero by exact Hin. reflexivity.
Qed.

Lemma volume_zero_extent_witness :
  volume (mkDims 3 [2147483647; 0; 2147483647; 1; 1; 1; 1; 1]) = Some 0.
Proof.
  apply (volume_zero_extent
           (mkDims 3 [2147483647; 0; 2147483647; 1; 1; 1; 1; 1])).
  - simpl. lia.
  - simpl. tauto.
Defined.

Lemma store_length (l : list Z) (i : nat) (x : Z) :
  List.length (store l i x) = List.length l.
Proof.
  revert i. induction l as [| y l IH]; intros [| i]; simpl; congruence.
Qed.

Lemma store_firstn (l : list Z) (i n : nat) (x : Z) :
  (n <= i)%nat -> firstn n (store l i x) = firstn n l.
Proof.
  revert i n. induction l as [| y l IH]; intros [| i] [| n] Hle; simpl;
    try reflexivity; try lia.
  f_equal. apply IH. lia.
Qed.

Lemma store_same (l : list Z) (i : nat) (x : Z) :
  nth_error l i = Some x -> store l i x = l.
Proof.
  revert i. induction l as [| y l IH]; intros [| i]; simpl;
    try discriminate.
  - intros [= ->]. reflexivity.
  - intros H. f_equal. apply IH. exact H.
Qed.

(** A negative [vecDim] switches the rounding off: [comps] is not
    looked at. *)
Lemma volume4_without_rounding (dims : Dims) (vecDim comps batch : Z) :
  vecDim < 0 ->
  volume4 dims vecDim comps batch =
  (v <-? volume dims ; Some (Int.wrap64 (v * Z.max batch 1))).
Proof.
  intros Hneg. unfold volume4.
  destruct (Z.leb_spec 0 vecDim); [ lia | ]. reflexivity.
Qed.

(** X8. Rounding an extent at or past the rank does not change the result:
    only the first [nbDims] extents are multiplied. *)
Theorem volume4_rounding_past_rank
    (dims : Dims) (vecDim comps batch x r : Z) :
  0 <= nbDims dims <= vecDim ->
  nth_error (d dims) (Z.to_nat vecDim) = Some x ->
  roundUp 32 x comps = Some r ->
  volume4 dims vecDim comps batch =
  (v <-? volume dims ; Some (Int.wrap64 (v * Z.max batch 1))).
Proof.
  intros Hrank Hx Hr. unfold volume4.
  destruct (Z.leb_spec 0 vecDim); [ | lia ].
  rewrite Hx. cbn [obind]. rewrite Hr. cbn [obind].
  replace (volume (mkDims (nbDims dims) (store (d dims) (Z.to_nat vecDim) r)))
    with (volume dims); [ reflexivity | ].
  unfold volume. cbn [nbDims d]. rewrite store_length.
  rewrite store_firstn by lia. reflexivity.
Qed.

Lemma volume4_rounding_past_rank_witness :
  volume4 (mkDims 2 [2; 3; 5; 0; 0; 0; 0; 0]) 2 4 1 = Some 6.
Proof.
  rewrite (volume4_rounding_past_rank
             (mkDims 2 [2; 3; 5; 0; 0; 0; 0; 0]) 2 4 1 5 8);
    [ reflexivity | simpl; lia | reflexivity | reflexivity ].
Defined.

Lemma nth_error_in_array (dims : Dims) (i : Z) :
  Dims_wf dims -> 0 <= i ->
  (nth_error (d dims) (Z.to_nat i) = None <-> MAX_DIMS <= i).
Proof.
  intros (_ & Hlen & _) Hi. rewrite nth_error_None. lia.
Qed.

(** [roundUp] of a non-negative [m] by a positive [n], when [m + n - 1]
    fits: the quotient of the code is the floor of [(m + n - 1) / n]. *)
Lemma roundUp_exact (w m n : Z) :
  0 < w -> 0 <= m -> 0 < n ->
  m + n - 1 <= Int.max_signed w ->
  roundUp w m n = Some ((m + n - 1) / n * n).
Proof.
  intros Hw Hm Hn Hfit.
  assert (Hp : 0 < 2 ^ (w - 1)) by (apply Z.pow_pos_nonneg; lia).
  unfold Int.max_signed in Hfit.
  unfold roundUp. rewrite numerator_exact;
    [ | exact Hw | unfold Int.in_range, Int.min_signed, Int.max_signed; lia ].
  unfold Int.sdiv.
  destruct (Z.eqb_spec n 0); [ lia | ].
  destruct (Z.eqb_spec (m + n - 1) (Int.min_signed w)) as [E | _];
    [ unfold Int.min_signed in E; lia | ].
  cbn [andb obind]. rewrite Z.quot_div_nonneg by lia.
  pose proof (Z.div_mod (m + n - 1) n ltac:(lia)) as Hdm.
  pose proof (Z.mod_pos_bound (m + n - 1) n Hn) as Hmb.
  f_equal. apply wrap_in_range; [ exact Hw | ].
  unfold Int.in_range, Int.min_signed, Int.max_signed. nia.
Qed.

(** X9. The rounding of the four-argument [volume], for a [vecDim] that
    indexes the array, [x] being the extent there.  A zero [comps] has no
    result: [roundUp] divides by it.  For [x >= 0] and a positive [comps]
    with [x + comps - 1] an [int32_t], and a rank inside the array, the
    result is the product of the first [nbDims] extents, the one at
    [vecDim] replaced by the least multiple of [comps] at or above it,
    times [max(batch, 1)], reduced to 64 bits; it is that product itself
    when it fits an [int64_t]. *)
Theorem volume4_rounding (dims : Dims) (vecDim comps batch x : Z) :
  0 <= vecDim ->
  nth_error (d dims) (Z.to_nat vecDim) = Some x ->
  (comps = 0 -> volume4 dims vecDim comps batch = None) /\
  (0 <= x -> 0 < comps -> x + comps - 1 <= Int.max_signed 32 ->
   0 <= nbDims dims <= Z.of_nat (List.length (d dims)) ->
   let padded :=
     mkDims (nbDims dims)
            (store (d dims) (Z.to_nat vecDim)
                   ((x + comps - 1) / comps * comps)) in
   let total := product (extents padded) * Z.max batch 1 in
   volume4 dims vecDim comps batch = Some (Int.wrap64 total) /\
   (Int.in_range 64 total ->
    volume4 dims vecDim comps batch = Some total)).
Proof.
  intros Hvec Hx. unfold volume4.
  destruct (Z.leb_spec 0 vecDim); [ | lia ].
  rewrite Hx. cbn [obind]. split.
  - intros ->. reflexivity.
  - intros Hx0 Hc Hfit Hrank. cbv zeta.
    rewrite roundUp_exact by (assumption || lia). cbn [obind].
    rewrite volume_some by (cbn [nbDims d]; rewrite store_length; exact Hrank).
    cbn [obind].
    assert (Heq : Int.wrap64
                    (Int.wrap64
                       (product
                          (extents
                             (mkDims (nbDims dims)
                                (store (d dims) (Z.to_nat vecDim)
                                   ((x + comps - 1) / comps * comps))))) *
                     Z.max batch 1) =
                  Int.wrap64
                    (product
                       (extents
                          (mkDims (nbDims dims)
                             (store (d dims) (Z.to_nat vecDim)
                                ((x + comps - 1) / comps * comps)))) *
                     Z.max batch 1)).
    { unfold Int.wrap64. apply wrap_mul_l. lia. }
    rewrite Heq. split; [ reflexivity | ].
    intros Hin. f_equal. apply wrap_in_range; [ lia | exact Hin ].
Qed.

Lemma volume4_rounding_witness :
  volume4 (mkDims 3 [2; 3; 5; 0; 0; 0; 0; 0]) 1 0 7 = None /\
  volume4 (mkDims 3 [2; 3; 5; 0; 0; 0; 0; 0]) 1 4 7 = Some (2 * (4 * (5 * 1)) * 7).
Proof.
  assert (Hvec : 0 <= 1) by lia.
  assert (Hx : nth_error (d (mkDims 3 [2; 3; 5; 0; 0; 0; 0; 0])) (Z.to_nat 1)
               = Some 3) by reflexivity.
  split.
  - apply (proj1 (volume4_rounding _ 1 0 7 3 Hvec Hx)). reflexivity.
  - apply (proj2 (volume4_rounding _ 1 4 7 3 Hvec Hx));
      try (unfold Int.max_signed; simpl; lia).
    unfold Int.in_range, Int.min_signed, Int.max_signed. simpl. lia.
Defined.

(** X10. A batch of at least 1 scales the result of a batch of 1; the
    product is reduced to 64 bits once more. *)
Theorem volume4_scales_with_batch (dims : Dims) (vecDim comps batch : Z) :
  1 <= batch ->
  volume4 dims vecDim comps batch =
  (v <-? volume4 dims vecDim comps 1 ; Some (Int.wrap64 (v * batch))).
Proof.
  intros Hb. unfold volume4.
  destruct (if 0 <=? vecDim then _ else _) as [dims' |]; [ | reflexivity ].
  cbn [obind]. destruct (volume dims') as [v |]; [ | reflexivity ].
  cbn [obind]. f_equal.
  rewrite Z.max_l by lia. rewrite Z.max_id.
  unfold Int.wrap64. rewrite wrap_mul_l by lia. f_equal. ring.
Qed.

Lemma volume4_scales_with_batch_witness :
  volume4 (mkDims 3 [2; 3; 5; 0; 0; 0; 0; 0]) 1 4 7 = Some 280.
Proof.
  rewrite (volume4_scales_with_batch
             (mkDims 3 [2; 3; 5; 0; 0; 0; 0; 0]) 1 4 7) by lia.
  reflexivity.
Defined.

Lemma roundUp_one (x : Z) : Int.in_range 32 x -> roundUp 32 x 1 = Some x.
Proof.
  intros Hx. unfold roundUp.
  replace (Int.wrap 32 (x + 1) - 1) with (Int.wrap 32 (x + 1) + (-1)) by lia.
  rewrite wrap_add_l by lia.
  replace (x + 1 + -1) with x by lia.
  rewrite (wrap_in_range 32 x) by (lia || exact Hx).
  unfold Int.sdiv. cbn [Z.eqb andb]. rewrite andb_false_r. cbn [obind].
  rewrite Z.quot_1_r, Z.mul_1_r.
  rewrite wrap_in_range by (lia || exact Hx). reflexivity.
Qed.

(** X11. With one component per vector the rounding leaves the shape as it
    is, for any [vecDim] that indexes the array. *)
Theorem volume4_one_component (dims : Dims) (vecDim batch : Z) :
  Dims_wf dims ->
  vecDim < MAX_DIMS ->
  volume4 dims vecDim 1 batch =
  (v <-? volume dims ; Some (Int.wrap64 (v * Z.max batch 1))).
Proof.
  intros Hwf Hvec. unfold volume4.
  destruct (Z.leb_spec 0 vecDim) as [Hpos | Hneg]; [ | reflexivity ].
  destruct (nth_error (d dims) (Z.to_nat vecDim)) as [x |] eqn:Hx.
  - cbn [obind].
    assert (Hrx : Int.in_range 32 x).
    { destruct Hwf as (_ & _ & Hall).
      rewrite Forall_forall in Hall. apply Hall.
      eapply nth_error_In. exact Hx. }
    rewrite roundUp_one by exact Hrx. cbn [obind].
    rewrite store_same by exact Hx.
    destruct dims; reflexivity.
  - apply (nth_error_in_array dims vecDim Hwf Hpos) in Hx. lia.
Qed.

Lemma volume4_one_component_witness :
  volume4 (mkDims 3 [2; 3; 5; 0; 0; 0; 0; 0]) 1 1 0 = Some 30.
Proof.
  rewrite (volume4_one_component (mkDims 3 [2; 3; 5; 0; 0; 0; 0; 0]) 1 0).
  - reflexivity.
  - unfold Dims_wf, Int.in_range, Int.min_signed, Int.max_signed. simpl.
    repeat split; try lia.
    repeat constructor; simpl; lia.
  - unfold MAX_DIMS. lia.
Defined.

(* ===================================================================== *)
(** * Further properties of safeSplitString *)
(* ===================================================================== *)

Open Scope string_scope.

Lemma join_fields (delimiter : ascii) (s : string) :
  join delimiter (fields delimiter s) = s.
Proof.
  induction s as [| c s IH]; simpl; [ reflexivity | ].
  pose proof (fields_not_nil delimiter s) as Hne.
  destruct (Ascii.eqb_spec c delimiter) as [-> | Hc].
  - destruct (fields delimiter s) as [| f fs]; [ congruence | ].
    simpl. f_equal. exact IH.
  - destruct (fields delimiter s) as [| f fs]; [ congruence | ].
    simpl in *. destruct fs as [| g gs].
    + congruence.
    + simpl. f_equal. exact IH.
Qed.

Lemma fields_no_delimiter (delimiter : ascii) (s : string) :
  Forall (fun f => occurrences delimiter f = 0%nat) (fields delimiter s).
Proof.
  induction s as [| c s IH]; simpl.
  - constructor; [ reflexivity | constructor ].
  - destruct (Ascii.eqb c delimiter) eqn:Ec.
    + constructor; [ reflexivity | exact IH ].
    + destruct (fields delimiter s) as [| f fs].
      * constructor; [ simpl; rewrite Ec; reflexivity | constructor ].
      * inversion IH as [| ? ? Hf Hfs]; subst.
        constructor; [ simpl; rewrite Ec; exact Hf | exact Hfs ].
Qed.

Lemma append_empty_r (s : string) : s ++ "" = s.
Proof. induction s as [| c s IH]; simpl; congruence. Qed.

Lemma fields_append (delimiter : ascii) (f s g : string) (gs : list string) :
  occurrences delimiter f = 0%nat ->
  fields delimiter s = g :: gs ->
  fields delimiter (f ++ s) = (f ++ g) :: gs.
Proof.
  intros Hf Hs. induction f as [| c f IH]; simpl in *.
  - exact Hs.
  - destruct (Ascii.eqb c delimiter); [ discriminate | ].
    rewrite IH by exact Hf. reflexivity.
Qed.

Lemma fields_join (delimiter : ascii) (fs : list string) :
  fs <> [] ->
  Forall (fun f => occurrences delimiter f = 0%nat) fs ->
  fields delimiter (join delimiter fs) = fs.
Proof.
  induction fs as [| f fs IH]; intros Hne Hall; [ congruence | ].
  inversion Hall as [| ? ? Hf Hfs]; subst.
  destruct fs as [| g gs].
  - simpl. rewrite <- (append_empty_r f) at 1.
    rewrite (fields_append delimiter f "" "" []); [ | exact Hf | reflexivity ].
    rewrite append_empty_r. reflexivity.
  - change (join delimiter (f :: g :: gs))
      with (f ++ String delimiter (join delimiter (g :: gs))).
    rewrite (fields_append delimiter f _ "" (g :: gs)).
    + rewrite append_empty_r. reflexivity.
    + exact Hf.
    + cbn [fields]. rewrite Ascii.eqb_refl. f_equal.
      apply IH; [ discriminate | exact Hfs ].
Qed.

(** X12. Splitting loses nothing: the elements of the result, put back
    together with the delimiter between them, are the input string. *)
Theorem safeSplitString_join (str : string) (delimiter : ascii) :
  exists v : list string,
    safeSplitString str delimiter = Some v /\ join delimiter v = str.
Proof.
  exists (fields delimiter str).
  split; [ apply safeSplitString_fields | apply join_fields ].
Qed.

(** X13. The result has one element more than the input has delimiters,
    and no element contains the delimiter. *)
Theorem safeSplitString_elements (str : string) (delimiter : ascii) :
  exists v : list string,
    safeSplitString str delimiter = Some v /\
    List.length v = S (occurrences delimiter str) /\
    Forall (fun f => occurrences delimiter f = 0%nat) v.
Proof.
  exists (fields delimiter str).
  split; [ apply safeSplitString_fields | ].
  split; [ apply fields_length | apply fields_no_delimiter ].
Qed.

(** X14. Splitting undoes joining: strings that do not contain the
    delimiter, at least one of them, joined by it, split into themselves,
    empty ones among them included. *)
Theorem safeSplitString_of_join (fs : list string) (delimiter : ascii) :
  fs <> [] ->
  Forall (fun f => occurrences delimiter f = 0%nat) fs ->
  safeSplitString (join delimiter fs) delimiter = Some fs.
Proof.
  intros Hne Hall. rewrite safeSplitString_fields.
  f_equal. apply fields_join; assumption.
Qed.

Lemma safeSplitString_of_join_witness :
  safeSplitString (join "," [""; "ab"; ""; "c"; ""]) "," =
  Some [""; "ab"; ""; "c"; ""].
Proof.
  apply (safeSplitString_of_join [""; "ab"; ""; "c"; ""] ",").
  - discriminate.
  - repeat constructor.
Defined.

Close Scope string_scope.

(* ===================================================================== *)
(** * Further properties of TrtCudaGraphSafe *)
(* ===================================================================== *)

Lemma Forall_snoc {A : Type} (P : A -> Prop) (l : list A) (x : A) :
  Forall P l -> P x -> Forall P (l ++ [x]).
Proof.
  intros Hl Hx. apply Forall_app. split; [ exact Hl | ].
  constructor; [ exact Hx | constructor ].
Qed.

Section FurtherMemberProperties.

Context {D : Type} `{RT : CudaRuntime D}.


(** The events one operation adds are in the global mode if they begin a
    capture, and none destroys an executable graph. *)
Lemma run_op_events (o : @op D) (p : process D) :
  exists evs,
    trace (snd (run_op o p)) = trace p ++ evs /\
    forallb begins_globally evs = true /\
    count is_GraphExecDestroy evs = 0%nat /\
    (mGraphExec (this p) = nullptr ->
     is_EndCapture o = false ->
     forallb launches_nullptr evs = true).
Proof.
  destruct o as [s | s | s | s | f]; cbn [run_op is_EndCapture]; run;
    rewrite <- ?app_assoc; cbn [app];
    try (eexists; split; [ reflexivity | ];
         repeat split; intros; try reflexivity; try discriminate).
  - cbn. rewrite H. reflexivity.
  - exists []. rewrite app_nil_r. repeat split.
Qed.

Lemma run_ops_events (ops : list (@op D)) :
  forall p : process D,
    exists evs,
      trace (snd (run_ops ops p)) = trace p ++ evs /\
      forallb begins_globally evs = true /\
      count is_GraphExecDestroy evs = 0%nat /\
      (mGraphExec (this p) = nullptr ->
       endCaptures ops = 0%nat ->
       forallb launches_nullptr evs = true).
Proof.
  induction ops as [| o ops IH]; intros p.
  - exists []. cbn. rewrite app_nil_r. repeat split.
  - cbn [run_ops]. unfold bind.
    destruct (run_op_events o p) as (evs1 & Htr1 & Hg1 & Hd1 & Hl1).
    pose proof (run_op_keeps_mGraphExec o p) as Hkeep.
    destruct (run_op o p) as [[[] |] p1]; cbn [snd] in *.
    + destruct (IH p1) as (evs2 & Htr2 & Hg2 & Hd2 & Hl2).
      exists (evs1 ++ evs2). rewrite Htr2, Htr1, app_assoc.
      split; [ reflexivity | ].
      rewrite forallb_app, Hg1, Hg2, count_app, Hd1, Hd2.
      repeat split.
      intros Hnull Hnone. unfold endCaptures in Hnone. cbn in Hnone.
      destruct (is_EndCapture o) eqn:Ho; [ discriminate | ].
      rewrite forallb_app, Hl1, Hl2; try reflexivity; try assumption.
      rewrite Hkeep by reflexivity. exact Hnull.
    + exists evs1. split; [ exact Htr1 | ].
      repeat split; try assumption.
      intros Hnull Hnone. unfold endCaptures in Hnone. cbn in Hnone.
      destruct (is_EndCapture o) eqn:Ho; [ discriminate | ].
      apply Hl1; [ exact Hnull | reflexivity ].
Qed.

(** The destructor, whatever the outcome of the call it may make. *)
Lemma destructor_events (p : process D) :
  fst (destructor p) = Returned tt /\
  cerr (snd (destructor p)) = cerr p /\
  gLogError (snd (destructor p)) = gLogError p /\
  this (snd (destructor p)) = this p /\
  exists evs,
    trace (snd (destructor p)) = trace p ++ evs /\
    forallb begins_globally evs = true /\
    forallb launches_nullptr evs = true /\
    forallb (releases_only (mGraphExec (this p))) evs = true /\
    (count is_GraphExecDestroy evs <= 1)%nat /\
    (mGraphExec (this p) = nullptr -> evs = []) /\
    count is_GraphInstantiate evs = 0%nat.
Proof.
  run; repeat split.
  - eexists. split; [ reflexivity | ]. cbn. rewrite N.eqb_refl.
    repeat split; try lia; intros; congruence.
  - exists []. rewrite app_nil_r. repeat split; cbn; lia.
Qed.

(** X16. In every lifetime, whatever the caller does in whatever order,
    each capture the object begins is begun in the global mode. *)
Theorem every_capture_is_global (rt : D) (ops : list (@op D)) :
  forallb begins_globally (trace (snd (lifetime rt ops))) = true.
Proof.
  unfold lifetime, bind.
  destruct (run_ops_events ops (construct rt)) as (evs & Htr & Hg & _).
  destruct (run_ops ops (construct rt)) as [[[] |] p1]; cbn [snd] in *.
  - destruct (destructor_events p1) as (_ & _ & _ & _ & evs' & Htr' & Hg' & _).
    rewrite Htr', Htr. cbn [trace construct app].
    rewrite forallb_app, Hg, Hg'. reflexivity.
  - rewrite Htr. exact Hg.
Qed.

(** What one operation writes to the two output streams. *)
Lemma run_op_output (o : @op D) (p : process D) :
  match fst (run_op o p) with
  | Returned _ =>
      cerr (snd (run_op o p)) = cerr p /\
      gLogError (snd (run_op o p)) =
        gLogError p ++
        (if is_EndCaptureOnError o then [the_capture_failed_message] else [])
  | Aborted =>
      (exists dg, cerr (snd (run_op o p)) = cerr p ++ [dg]) /\
      gLogError (snd (run_op o p)) = gLogError p
  end.
Proof.
  destruct o as [s | s | s | s | f];
    cbn [run_op is_EndCaptureOnError]; run;
    rewrite ?app_nil_r; split; try reflexivity;
    eexists; reflexivity.
Qed.

Lemma run_ops_output (ops : list (@op D)) :
  forall p : process D,
    match fst (run_ops ops p) with
    | Returned _ =>
        cerr (snd (run_ops ops p)) = cerr p /\
        gLogError (snd (run_ops ops p)) =
          gLogError p ++
          repeat the_capture_failed_message (endCaptureOnErrors ops)
    | Aborted =>
        exists dg, cerr (snd (run_ops ops p)) = cerr p ++ [dg]
    end.
Proof.
  induction ops as [| o ops IH]; intros p.
  - cbn. rewrite app_nil_r. split; reflexivity.
  - cbn [run_ops]. unfold bind.
    pose proof (run_op_output o p) as Hop.
    destruct (run_op o p) as [[[] |] p1]; cbn [fst snd] in *.
    + destruct Hop as [Hc Hl]. specialize (IH p1).
      destruct (fst (run_ops ops p1)).
      * destruct IH as [Hc' Hl']. split; [ congruence | ].
        rewrite Hl', Hl, <- app_assoc. f_equal.
        unfold endCaptureOnErrors. cbn [filter].
        destruct (is_EndCaptureOnError o); reflexivity.
      * destruct IH as [dg Hdg]. exists dg. congruence.
    + destruct Hop as [Hdg _]. exact Hdg.
Qed.

(** X17. A lifetime writes to [cerr] exactly when it aborts, and then one
    line; the destructor never aborts, so a lifetime aborts exactly when
    one of the caller's operations does. *)
Theorem lifetime_cerr (rt : D) (ops : list (@op D)) :
  fst (lifetime rt ops) = fst (run_ops ops (construct rt)) /\
  match fst (lifetime rt ops) with
  | Returned _ => cerr (snd (lifetime rt ops)) = []
  | Aborted => exists dg, cerr (snd (lifetime rt ops)) = [dg]
  end.
Proof.
  unfold lifetime, bind.
  pose proof (run_ops_output ops (construct rt)) as Hout.
  destruct (run_ops ops (construct rt)) as [[[] |] p1]; cbn [fst snd] in *.
  - destruct (destructor_events p1) as (Hret & Hcerr & _).
    destruct (destructor p1) as [o p2]; cbn [fst snd] in *. subst o.
    split; [ reflexivity | ]. destruct Hout as [Hc _].
    rewrite Hcerr, Hc. reflexivity.
  - split; [ reflexivity | ]. exact Hout.
Qed.

(** X18. The log of a lifetime that returns holds the message that the
    capture failed once for each [endCaptureOnError], and nothing else. *)
Theorem lifetime_log (rt : D) (ops : list (@op D)) (p : process D) :
  lifetime rt ops = (Returned tt, p) ->
  gLogError p = repeat the_capture_failed_message (endCaptureOnErrors ops).
Proof.
  intros Hlife. destruct (lifetime_returned rt ops p Hlife) as (p1 & Hrun & ->).
  pose proof (run_ops_output ops (construct rt)) as Hout.
  rewrite Hrun in Hout. cbn [fst snd] in Hout. destruct Hout as [_ Hl].
  destruct (destructor_events p1) as (_ & _ & Hlog & _).
  rewrite Hlog, Hl. reflexivity.
Qed.

(** A returning operation instantiates once if it is [endCapture] and not
    at all otherwise. *)
Lemma run_op_instantiations (o : @op D) (p p' : process D) :
  run_op o p = (Returned tt, p') ->
  count is_GraphInstantiate (trace p') =
  (count is_GraphInstantiate (trace p) + (if is_EndCapture o then 1 else 0))%nat.
Proof.
  destruct o as [s | s | s | s | f]; cbn [run_op is_EndCapture]; run;
    intros [= <-]; project; rewrite ?count_app; unfold count; simpl; lia.
Qed.

Lemma run_ops_instantiations (ops : list (@op D)) :
  forall p p' : process D,
    run_ops ops p = (Returned tt, p') ->
    count is_GraphInstantiate (trace p') =
    (count is_GraphInstantiate (trace p) + endCaptures ops)%nat.
Proof.
  induction ops as [| o ops IH]; intros p p' Hrun.
  - injection Hrun as <-. unfold endCaptures. simpl. lia.
  - cbn [run_ops] in Hrun. unfold bind in Hrun.
    destruct (run_op o p) as [[[] |] p1] eqn:Hop; [ | discriminate ].
    rewrite (IH p1 p' Hrun), (run_op_instantiations o p p1 Hop).
    unfold endCaptures. cbn [filter].
    destruct (is_EndCapture o); simpl; lia.
Qed.

(** X19. A lifetime that returns has instantiated one executable graph for
    each [endCapture], and destroys at most one: the one the object holds
    at the end.  The object does not guard against a second capture, and
    what an earlier [endCapture] instantiated is then never destroyed. *)
Theorem lifetime_releases_last_only
    (rt : D) (ops : list (@op D)) (p : process D) :
  lifetime rt ops = (Returned tt, p) ->
  count is_GraphInstantiate (trace p) = endCaptures ops /\
  (count is_GraphExecDestroy (trace p) <= 1)%nat /\
  forallb (releases_only (mGraphExec (this p))) (trace p) = true.
Proof.
  intros Hlife. destruct (lifetime_returned rt ops p Hlife) as (p1 & Hrun & ->).
  pose proof (run_ops_instantiations ops (construct rt) p1 Hrun) as Hinst.
  destruct (run_ops_events ops (construct rt)) as (evs & Htr & _ & Hd & _).
  rewrite Hrun in Htr. cbn [snd trace construct app] in Htr.
  destruct (destructor_events p1)
    as (_ & _ & _ & Hthis & evs' & Htr' & _ & _ & Hrel & Hone & _ & Hno).
  rewrite Htr', Hthis, !count_app, forallb_app, Hrel, Htr, Hd.
  rewrite Htr in Hinst. cbn in Hinst.
  rewrite Hno, Hinst. repeat split; try lia.
  rewrite andb_true_r.
  clear - Hd. unfold count in Hd. induction evs as [| ev evs IH].
  - reflexivity.
  - cbn in *. destruct ev; cbn in *; try (apply IH; exact Hd).
    discriminate.
Qed.

(** X20. An object on which [endCapture] is never called never calls
    [cudaGraphExecDestroy], and each [launch] on it passes the null
    handle to [cudaGraphLaunch]: [launch] does not check that there is an
    executable graph. *)
Theorem lifetime_without_endCapture (rt : D) (ops : list (@op D)) :
  endCaptures ops = 0%nat ->
  count is_GraphExecDestroy (trace (snd (lifetime rt ops))) = 0%nat /\
  forallb launches_nullptr (trace (snd (lifetime rt ops))) = true.
Proof.
  intros Hnone. unfold lifetime, bind.
  destruct (run_ops_events ops (construct rt)) as (evs & Htr & _ & Hd & Hl).
  specialize (Hl eq_refl Hnone).
  pose proof (run_ops_keeps_mGraphExec ops (construct rt) Hnone) as Hkeep.
  destruct (run_ops ops (construct rt)) as [[[] |] p1]; cbn [snd] in *.
  - destruct (destructor_events p1)
      as (_ & _ & _ & _ & evs' & Htr' & _ & _ & _ & _ & Hnil & _).
    rewrite (Hnil Hkeep) in Htr'. rewrite Htr', app_nil_r, Htr.
    cbn [trace construct app]. split; assumption.
  - rewrite Htr. cbn [trace construct app]. split; assumption.
Qed.

End FurtherMemberProperties.

(** ** On the scripted runtime *)


Lemma lifetime_log_witness :
  fst (lifetime two_failures_runtime two_failures_ops) = Returned tt /\
  gLogError (snd (lifetime two_failures_runtime two_failures_ops)) =
    [the_capture_failed_message; the_capture_failed_message].
Proof.
  assert (Hlife : lifetime two_failures_runtime two_failures_ops =
                  (Returned tt,
                   snd (lifetime two_failures_runtime two_failures_ops)))
    by (vm_compute; reflexivity).
  split; [ rewrite Hlife; reflexivity | ].
  apply (lifetime_log two_failures_runtime two_failures_ops _ Hlife).
Defined.

Lemma lifetime_releases_last_only_witness :
  fst (lifetime recapture_runtime recapture_ops) = Returned tt /\
  count is_GraphInstantiate
        (trace (snd (lifetime recapture_runtime recapture_ops))) = 2%nat /\
  (count is_GraphExecDestroy
         (trace (snd (lifetime recapture_runtime recapture_ops))) <= 1)%nat /\
  mGraphExec (this (snd (lifetime recapture_runtime recapture_ops))) = 33%N.
Proof.
  assert (Hlife : lifetime recapture_runtime recapture_ops =
                  (Returned tt,
                   snd (lifetime recapture_runtime recapture_ops)))
    by (vm_compute; reflexivity).
  destruct (lifetime_releases_last_only
              recapture_runtime recapture_ops _ Hlife) as (Hinst & Hone & _).
  split; [ rewrite Hlife; reflexivity | ].
  split; [ exact Hinst | ].
  split; [ exact Hone | reflexivity ].
Defined.

(** The first executable graph of the two, [0x20], is not destroyed. *)
Example recapture_leaks_first_graph :
  trace (snd (lifetime recapture_runtime recapture_ops)) =
    [EvStreamBeginCapture 1%N cudaStreamCaptureModeGlobal cudaSuccess;
     EvStreamEndCapture 1%N cudaSuccess 16%N;
     EvGraphInstantiate 16%N cudaSuccess 32%N;
     EvGraphDestroy 16%N cudaSuccess;
     EvStreamBeginCapture 1%N cudaStreamCaptureModeGlobal cudaSuccess;
     EvStreamEndCapture 1%N cudaSuccess 17%N;
     EvGraphInstantiate 17%N cudaSuccess 33%N;
     EvGraphDestroy 17%N cudaSuccess;
     EvGraphExecDestroy 33%N cudaSuccess] /\
  count (is_GraphExecDestroy_of 32%N)
        (trace (snd (lifetime recapture_runtime recapture_ops))) = 0%nat.
Proof. split; reflexivity. Qed.

Lemma lifetime_without_endCapture_witness :
  endCaptures launch_only_ops = 0%nat /\
  count is_GraphExecDestroy
        (trace (snd (lifetime (Scripted.start [Scripted.ok; Scripted.ok])
                              launch_only_ops))) = 0%nat /\
  forallb launches_nullptr
          (trace (snd (lifetime (Scripted.start [Scripted.ok; Scripted.ok])
                                launch_only_ops))) = true.
Proof.
  split; [ reflexivity | ].
  apply (lifetime_without_endCapture
           (Scripted.start [Scripted.ok; Scripted.ok]) launch_only_ops).
  reflexivity.
Defined.
